(** * Ekot web app: broadcast store, poll scheduler and playback controller

    A shallow embedding of [app.js]: the day-scoped broadcast store
    ([state.broadcasts], [checkDayChange], [updateBroadcasts]), the adaptive
    poll scheduler ([calculatePollInterval], [schedulePoll]) and the playback
    controller with its audio-focus keep-alive timer ([playBroadcast],
    [togglePlayPause], [stopPlayback], [startAudioFocusKeepAlive]).

    The PWA build of the same file (v2.1.6, which reads the JSON API instead
    of the RSS feed) has these functions unchanged, apart from a flag
    [state.isPaused] that only the tiles read.

    The JavaScript objects are records, [state.broadcasts] is a finite map
    keyed by the slot label, and every function that mutates [state] or the
    DOM elements is a function from world to world.  What the browser decides
    (the clock, the outcome of a fetch, timers firing, audio events) enters as
    an event of a step relation.

    The second part covers the functions around these: the feed parser
    ([extractSlotFromTitle], [parseRss]), the tiles ([getSortedSlots],
    [renderTiles]), [skipTime], [showStatus] and the poll loop as a whole. *)

From stdpp Require Import gmap strings list fin_maps.
From Stdlib Require Import ZArith Lia.

Open Scope Z_scope.

(** ** Data model *)

(** [slot.pollStart] *)
Record PollStart := { hour : Z; minute : Z }.

(** An entry of [CONFIG.SLOTS]. *)
Record Slot := { time : string; pollStart : PollStart }.

(** A value of [state.broadcasts], as [parseRss] builds it.  [timestamp] is
    [new Date(pubDate).getTime()], an integer number of milliseconds: an
    unparsable date never gets this far, its day string differs from today's
    and [parseRss] drops the item. *)
Record Broadcast := {
  title : string;
  pubDate : string;
  timestamp : Z;
  audioUrl : string;
  slot : string
}.

(** What the code reads from the clock (fixed timezone):
    [getStockholmDate()] and [getStockholmHourMinute()]. *)
Record Now := { today : string; nowHour : Z; nowMinute : Z }.

Module CONFIG.
Definition SLOTS : list Slot :=
  [ {| time := "08:00"; pollStart := {| hour := 8; minute := 20 |} |};
    {| time := "12:30"; pollStart := {| hour := 13; minute := 0 |} |};
    {| time := "16:45"; pollStart := {| hour := 17; minute := 5 |} |};
    {| time := "17:45"; pollStart := {| hour := 18; minute := 10 |} |} ].

Module POLL_INTERVALS.
Definition ACTIVE : Z := 60000.
Definition EXTENDED : Z := 300000.
Definition IDLE : Z := 1800000.
End POLL_INTERVALS.

Definition ACTIVE_WINDOW : Z := 10.
Definition EXTENDED_WINDOW : Z := 30.
Definition AUDIO_FOCUS_TIMEOUT : Z := 15 * 60 * 1000.
End CONFIG.

(** JavaScript truthiness of a string: only the empty string is falsy. *)
Definition truthy (s : string) : bool :=
  match s with EmptyString => false | String _ _ => true end.

(** ** The store's pure readers *)

(** The body of the [for (const slot of CONFIG.SLOTS)] loop of
    [findLatestBroadcast], on the two locals [(latest, latestTimestamp)]. *)
Definition findLatest_body (broadcasts : gmap string Broadcast)
    (acc : option string * Z) (s : Slot) : option string * Z :=
  match broadcasts !! time s with
  | Some broadcast =>
      if timestamp broadcast >? snd acc
      then (Some (time s), timestamp broadcast)
      else acc
  | None => acc
  end.

Definition findLatest_loop (slots : list Slot)
    (broadcasts : gmap string Broadcast) (acc : option string * Z)
    : option string * Z :=
  fold_left (findLatest_body broadcasts) slots acc.

(** [findLatestBroadcast()] over [state.broadcasts]. *)
Definition findLatestBroadcast_of (broadcasts : gmap string Broadcast)
    : option string :=
  fst (findLatest_loop CONFIG.SLOTS broadcasts (None, 0)).

(** [slot.pollStart.hour * 60 + slot.pollStart.minute] *)
Definition pollStartMinutes (s : Slot) : Z :=
  hour (pollStart s) * 60 + minute (pollStart s).

(** The loop of [calculatePollInterval]: the first [return] reached wins. *)
Fixpoint pollInterval_loop (slots : list Slot) (currentMinutes : Z)
    (broadcasts : gmap string Broadcast) : Z :=
  match slots with
  | [] => CONFIG.POLL_INTERVALS.IDLE
  | s :: rest =>
      let diff := currentMinutes - pollStartMinutes s in
      match broadcasts !! time s with
      | None =>
          if (0 <=? diff) && (diff <=? CONFIG.ACTIVE_WINDOW)
          then CONFIG.POLL_INTERVALS.ACTIVE
          else if (CONFIG.ACTIVE_WINDOW <? diff) && (diff <=? CONFIG.EXTENDED_WINDOW)
          then CONFIG.POLL_INTERVALS.EXTENDED
          else pollInterval_loop rest currentMinutes broadcasts
      | Some _ => pollInterval_loop rest currentMinutes broadcasts
      end
  end.

(** [calculatePollInterval()] at clock reading [now]. *)
Definition calculatePollInterval_of (now : Now)
    (broadcasts : gmap string Broadcast) : Z :=
  pollInterval_loop CONFIG.SLOTS (nowHour now * 60 + nowMinute now) broadcasts.

(** ** Mutable state, DOM elements and the browser *)

(** The [state] object. *)
Record State := {
  broadcasts : gmap string Broadcast;
  currentSlot : option string;
  lastFetchDate : option string;
  pollTimer : option positive;
  lastEtag : option string;
  lastModified : option string;
  audioFocusTimer : option positive
}.

(** An [<audio>] element, as far as the code reads and writes it.  [src] is
    the element's [src] attribute: [None] while the element has none (as at
    the start), [Some url] once [element.src = url] has been assigned, also
    for the empty [url].  [paused] is the element's flag. *)
Record Media := { src : option string; paused : bool }.

(** [element.src] read as a condition.  The getter returns [''] for an
    element without the attribute, and otherwise the attribute resolved
    against the document's URL, which is never ['']: an empty attribute
    resolves to the document's URL itself.  So [element.src] is truthy
    exactly when the attribute is there. *)
Definition src_truthy (m : Media) : bool :=
  match src m with
  | Some _ => true
  | None => false
  end.

(** The element has a source to play: its attribute holds a URL. *)
Definition loaded (m : Media) : bool :=
  match src m with
  | Some url => truthy url
  | None => false
  end.

(** [elements.statusMessage]: its text and the classes [error], [visible]. *)
Record StatusMessage := { textContent : string; error : bool; visible : bool }.

(** The [elements] the controller acts on.  The tiles, the progress bar and
    the labels are presentation only and are left out, so [renderTiles()] and
    the icon and text updates do not appear below. *)
Record Elements := {
  audioPlayer : Media;
  silencePlayer : Media;
  statusMessage : StatusMessage
}.

(** The callbacks handed to [setTimeout]. *)
Inductive Callback :=
| PollTick       (* schedulePoll: await updateBroadcasts(); schedulePoll() *)
| FocusRelease   (* startAudioFocusKeepAlive: stopAudioFocusKeepAlive(); stopPlayback() *)
| StatusHide.    (* showStatus: remove the class visible *)

Record Timeout := { callback : Callback; delay : Z }.

(** What runs after the [await] of an [updateBroadcasts()] call. *)
Inductive Continuation :=
| ThenSchedulePoll   (* init and the poll callback: schedulePoll() *)
| ThenNothing.       (* the midnight check *)

(** The browser's side: pending timeouts by handle (handles are integers
    greater than zero, hence truthy), the next handle, the
    [updateBroadcasts()] calls suspended at their [await], and the number of
    unsettled [audioPlayer.play()] promises that carry the [catch] handler. *)
Record Browser := {
  timers : gmap positive Timeout;
  nextHandle : positive;
  fetches : list Continuation;
  plays : nat
}.

Record World := { state : State; elements : Elements; browser : Browser }.

#[global] Instance Callback_eq_dec : EqDecision Callback.
Proof. solve_decision. Defined.

Definition with_state (f : State → State) (w : World) : World :=
  {| state := f (state w); elements := elements w; browser := browser w |}.
Definition with_elements (f : Elements → Elements) (w : World) : World :=
  {| state := state w; elements := f (elements w); browser := browser w |}.
Definition with_browser (f : Browser → Browser) (w : World) : World :=
  {| state := state w; elements := elements w; browser := f (browser w) |}.

Definition set_broadcasts (v : gmap string Broadcast) (s : State) : State :=
  {| broadcasts := v; currentSlot := currentSlot s;
     lastFetchDate := lastFetchDate s; pollTimer := pollTimer s;
     lastEtag := lastEtag s; lastModified := lastModified s;
     audioFocusTimer := audioFocusTimer s |}.
Definition set_currentSlot (v : option string) (s : State) : State :=
  {| broadcasts := broadcasts s; currentSlot := v;
     lastFetchDate := lastFetchDate s; pollTimer := pollTimer s;
     lastEtag := lastEtag s; lastModified := lastModified s;
     audioFocusTimer := audioFocusTimer s |}.
Definition set_lastFetchDate (v : option string) (s : State) : State :=
  {| broadcasts := broadcasts s; currentSlot := currentSlot s;
     lastFetchDate := v; pollTimer := pollTimer s;
     lastEtag := lastEtag s; lastModified := lastModified s;
     audioFocusTimer := audioFocusTimer s |}.
Definition set_pollTimer (v : option positive) (s : State) : State :=
  {| broadcasts := broadcasts s; currentSlot := currentSlot s;
     lastFetchDate := lastFetchDate s; pollTimer := v;
     lastEtag := lastEtag s; lastModified := lastModified s;
     audioFocusTimer := audioFocusTimer s |}.
Definition set_cacheHeaders (etag lm : option string) (s : State) : State :=
  {| broadcasts := broadcasts s; currentSlot := currentSlot s;
     lastFetchDate := lastFetchDate s; pollTimer := pollTimer s;
     lastEtag := etag; lastModified := lm;
     audioFocusTimer := audioFocusTimer s |}.
Definition set_audioFocusTimer (v : option positive) (s : State) : State :=
  {| broadcasts := broadcasts s; currentSlot := currentSlot s;
     lastFetchDate := lastFetchDate s; pollTimer := pollTimer s;
     lastEtag := lastEtag s; lastModified := lastModified s;
     audioFocusTimer := v |}.

Definition set_audioPlayer (m : Media) (e : Elements) : Elements :=
  {| audioPlayer := m; silencePlayer := silencePlayer e;
     statusMessage := statusMessage e |}.
Definition set_silencePlayer (m : Media) (e : Elements) : Elements :=
  {| audioPlayer := audioPlayer e; silencePlayer := m;
     statusMessage := statusMessage e |}.
Definition set_statusMessage (m : StatusMessage) (e : Elements) : Elements :=
  {| audioPlayer := audioPlayer e; silencePlayer := silencePlayer e;
     statusMessage := m |}.

(** The media element's own behaviour: [play()] clears [paused], [pause()]
    sets it, and assigning [src] loads the new source, which leaves the
    element paused until [play()] is called. *)
Definition media_play (m : Media) : Media := {| src := src m; paused := false |}.
Definition media_pause (m : Media) : Media := {| src := src m; paused := true |}.
Definition media_set_src (url : string) (m : Media) : Media :=
  {| src := Some url; paused := true |}.

(** [setTimeout(callback, delay)]: registers the timeout under a fresh handle
    and returns the handle. *)
Definition setTimeout (cb : Callback) (ms : Z) (w : World) : World * positive :=
  let h := nextHandle (browser w) in
  (with_browser (λ b,
     {| timers := <[h := {| callback := cb; delay := ms |}]> (timers b);
        nextHandle := Pos.succ h; fetches := fetches b; plays := plays b |}) w,
   h).

(** [clearTimeout(handle)]: no effect when the handle is not pending. *)
Definition clearTimeout (h : positive) (w : World) : World :=
  with_browser (λ b,
    {| timers := delete h (timers b); nextHandle := nextHandle b;
       fetches := fetches b; plays := plays b |}) w.

(** A call that returns a promise the code awaits or catches. *)
Definition push_fetch (k : Continuation) (w : World) : World :=
  with_browser (λ b,
    {| timers := timers b; nextHandle := nextHandle b;
       fetches := fetches b ++ [k]; plays := plays b |}) w.
Definition drop_fetch (i : nat) (w : World) : World :=
  with_browser (λ b,
    {| timers := timers b; nextHandle := nextHandle b;
       fetches := delete i (fetches b); plays := plays b |}) w.
Definition set_plays (n : nat) (w : World) : World :=
  with_browser (λ b,
    {| timers := timers b; nextHandle := nextHandle b;
       fetches := fetches b; plays := n |}) w.

(** ** The functions of app.js *)

(** [showStatus(message, isError = false, duration = 3000)] *)
Definition showStatus (message : string) (isError : bool) (w : World) : World :=
  let w := with_elements (set_statusMessage
             {| textContent := message; error := isError; visible := true |}) w in
  fst (setTimeout StatusHide 3000 w).

(** [stopAudioFocusKeepAlive()] *)
Definition stopAudioFocusKeepAlive (w : World) : World :=
  let w := match audioFocusTimer (state w) with
           | Some h => with_state (set_audioFocusTimer None) (clearTimeout h w)
           | None => w
           end in
  with_elements (λ e,
    set_silencePlayer (media_set_src "" (media_pause (silencePlayer e))) e) w.

(** [stopPlayback()] *)
Definition stopPlayback (w : World) : World :=
  let w := stopAudioFocusKeepAlive w in
  let w := with_elements (λ e,
             set_audioPlayer (media_set_src "" (media_pause (audioPlayer e))) e) w in
  with_state (set_currentSlot None) w.

(** [startAudioFocusKeepAlive()] *)
Definition startAudioFocusKeepAlive (w : World) : World :=
  let w := stopAudioFocusKeepAlive w in
  let w := with_elements (λ e,
             set_silencePlayer
               (media_play (media_set_src "assets/silence.wav" (silencePlayer e))) e) w in
  let '(w, h) := setTimeout FocusRelease CONFIG.AUDIO_FOCUS_TIMEOUT w in
  with_state (set_audioFocusTimer (Some h)) w.

(** [resetForNewDay()] *)
Definition resetForNewDay (now : Now) (w : World) : World :=
  let w := with_state (set_broadcasts ∅) w in
  let w := with_state (set_currentSlot None) w in
  let w := with_state (set_lastFetchDate (Some (today now))) w in
  stopPlayback w.

(** [checkDayChange()]: the new world and the returned boolean. *)
Definition checkDayChange (now : Now) (w : World) : World * bool :=
  let currentDate := today now in
  match lastFetchDate (state w) with
  | Some d =>
      if truthy d && negb (String.eqb d currentDate)
      then (resetForNewDay now w, true)
      else (w, false)
  | None => (w, false)
  end.

(** [findLatestBroadcast()] *)
Definition findLatestBroadcast (w : World) : option string :=
  findLatestBroadcast_of (broadcasts (state w)).

(** [calculatePollInterval()] *)
Definition calculatePollInterval (now : Now) (w : World) : Z :=
  calculatePollInterval_of now (broadcasts (state w)).

(** [schedulePoll()] *)
Definition schedulePoll (now : Now) (w : World) : World :=
  let w := match pollTimer (state w) with
           | Some h => clearTimeout h w
           | None => w
           end in
  let interval := calculatePollInterval now w in
  let '(w, h) := setTimeout PollTick interval w in
  with_state (set_pollTimer (Some h)) w.

(** [playBroadcast(slot)].  The [catch] handler of [play()] runs later, when
    the browser rejects the promise: see [onPlayRejected]. *)
Definition playBroadcast (slot : string) (w : World) : World :=
  match broadcasts (state w) !! slot with
  | Some broadcast =>
      if truthy (audioUrl broadcast) then
        let w := stopAudioFocusKeepAlive w in
        let w := with_state (set_currentSlot (Some slot)) w in
        let w := with_elements (λ e,
                   set_audioPlayer
                     (media_play (media_set_src (audioUrl broadcast) (audioPlayer e))) e) w in
        set_plays (S (plays (browser w))) w
      else showStatus "Ingen sändning tillgänglig" true w
  | None => showStatus "Ingen sändning tillgänglig" true w
  end.

(** The [catch] handler shared by [playBroadcast] and [togglePlayPause]:
    [console.error(...); showStatus('Kunde inte spela upp ljudet', true)]. *)
Definition onPlayRejected (w : World) : World :=
  showStatus "Kunde inte spela upp ljudet" true w.

(** [togglePlayPause()] *)
Definition togglePlayPause (w : World) : World :=
  if negb (src_truthy (audioPlayer (elements w))) then
    match findLatestBroadcast w with
    | Some latestSlot =>
        if truthy latestSlot then playBroadcast latestSlot w
        else showStatus "Inga sändningar idag ännu" false w
    | None => showStatus "Inga sändningar idag ännu" false w
    end
  else if paused (audioPlayer (elements w)) then
    let w := stopAudioFocusKeepAlive w in
    let w := with_elements (λ e, set_audioPlayer (media_play (audioPlayer e)) e) w in
    set_plays (S (plays (browser w))) w
  else
    let w := with_elements (λ e, set_audioPlayer (media_pause (audioPlayer e)) e) w in
    startAudioFocusKeepAlive w.

(** The listeners of [setupAudioListeners] that touch the state. *)

(** ['ended']: [state.currentSlot = null] (and icon, progress, tiles). *)
Definition onEnded (w : World) : World :=
  with_state (set_currentSlot None) w.

(** ['error']: [showStatus('Fel vid uppspelning', true); stopPlayback()]. *)
Definition onError (w : World) : World :=
  stopPlayback (showStatus "Fel vid uppspelning" true w).

(** The action handlers of [setupMediaSession] for play, pause and stop. *)
Definition onMediaSessionPlay (w : World) : World :=
  let w := stopAudioFocusKeepAlive w in
  with_elements (λ e, set_audioPlayer (media_play (audioPlayer e)) e) w.

Definition onMediaSessionPause (w : World) : World :=
  let w := with_elements (λ e, set_audioPlayer (media_pause (audioPlayer e)) e) w in
  startAudioFocusKeepAlive w.

Definition onMediaSessionStop (w : World) : World := stopPlayback w.

(** How the request of [fetchRss] ends. *)
Inductive FetchOutcome :=
| NotModified                                   (* status 304 *)
| Failed                                        (* fetch throws, or not ok *)
| Malformed (etag lm : option string)           (* ok, parseRss throws *)
| Parsed (etag lm : option string) (items : gmap string Broadcast).

(** [fetchRss] from the response on: the value it resolves to ([None] is
    JavaScript's [null]) and its effects. *)
Definition fetchRss_settle (r : FetchOutcome) (w : World)
    : World * option (gmap string Broadcast) :=
  match r with
  | NotModified => (w, None)
  | Failed => (showStatus "Kunde inte hämta sändningar" true w, None)
  | Malformed etag lm =>
      (showStatus "Kunde inte hämta sändningar" true
         (with_state (set_cacheHeaders etag lm) w), None)
  | Parsed etag lm items =>
      (with_state (set_cacheHeaders etag lm) w, Some items)
  end.

(** [Object.assign(target, source)]: every key of [source] is written to
    [target], the other keys of [target] stay. *)
Definition Object_assign (target source : gmap string Broadcast)
    : gmap string Broadcast := source ∪ target.

(** [updateBroadcasts()] up to its [await]: [checkDayChange()], then the
    request is under way. *)
Definition updateBroadcasts_begin (k : Continuation) (now : Now) (w : World)
    : World :=
  push_fetch k (fst (checkDayChange now w)).

(** [updateBroadcasts()] after its [await], with the value of [fetchRss]. *)
Definition updateBroadcasts_resume (now : Now)
    (newBroadcasts : option (gmap string Broadcast)) (w : World) : World :=
  match newBroadcasts with
  | Some items =>
      let w := with_state (λ s,
                 set_broadcasts (Object_assign (broadcasts s) items) s) w in
      with_state (set_lastFetchDate (Some (today now))) w
  | None => w
  end.

(** The whole tail of an [updateBroadcasts()] call once its request ends, and
    what the caller does next. *)
Definition onFetchSettled (k : Continuation) (r : FetchOutcome) (now : Now)
    (w : World) : World :=
  let '(w, newBroadcasts) := fetchRss_settle r w in
  let w := updateBroadcasts_resume now newBroadcasts w in
  match k with
  | ThenSchedulePoll => schedulePoll now w
  | ThenNothing => w
  end.

(** The callback of [setInterval] in [setupMidnightCheck]. *)
Definition onMidnightCheck (now : Now) (w : World) : World :=
  let '(w, changed) := checkDayChange now w in
  if changed then updateBroadcasts_begin ThenNothing now w else w.

(** The timeout callbacks.  The browser has taken the timeout off its list
    before the callback runs. *)
Definition onPollTimer (now : Now) (w : World) : World :=
  updateBroadcasts_begin ThenSchedulePoll now w.

Definition onFocusTimer (w : World) : World :=
  stopPlayback (stopAudioFocusKeepAlive w).

Definition onStatusTimer (w : World) : World :=
  with_elements (λ e,
    set_statusMessage
      {| textContent := textContent (statusMessage e);
         error := error (statusMessage e); visible := false |} e) w.

(** The literal [state] object and the page before [init()]. *)
Definition state0 : State :=
  {| broadcasts := ∅; currentSlot := None; lastFetchDate := None;
     pollTimer := None; lastEtag := None; lastModified := None;
     audioFocusTimer := None |}.

Definition world0 : World :=
  {| state := state0;
     elements :=
       {| audioPlayer := {| src := None; paused := true |};
          silencePlayer := {| src := None; paused := true |};
          statusMessage := {| textContent := ""; error := false; visible := false |} |};
     browser := {| timers := ∅; nextHandle := 1%positive; fetches := []; plays := 0 |} |}.

(** [init()] up to its [await updateBroadcasts(true)]. *)
Definition init (now : Now) : World :=
  let w := with_state (set_lastFetchDate (Some (today now))) world0 in
  updateBroadcasts_begin ThenSchedulePoll now w.

(** ** Events *)

Inductive Event :=
| TileClick (slot : string)
| PlayPauseClick
| PlayResolved
| PlayRejected
| AudioEnded
| AudioError
| MediaSessionPlay
| MediaSessionPause
| MediaSessionStop
| PollTimerFired (h : positive) (now : Now)
| FocusTimerFired (h : positive)
| StatusTimerFired (h : positive)
| MidnightCheck (now : Now)
| FetchSettled (i : nat) (r : FetchOutcome) (now : Now).

(** One turn of the event loop.  A timeout fires only while it is pending, a
    request ends only while it is under way, and the audio element reports
    the end of its source only while it has one; the element is paused when
    ['ended'] is dispatched. *)
Inductive step : World → Event → World → Prop :=
| step_tile w slot :
    step w (TileClick slot) (playBroadcast slot w)
| step_toggle w :
    step w PlayPauseClick (togglePlayPause w)
| step_play_resolved w n :
    plays (browser w) = S n →
    step w PlayResolved (set_plays n w)
| step_play_rejected w n :
    plays (browser w) = S n →
    step w PlayRejected (onPlayRejected (set_plays n w))
| step_ended w :
    loaded (audioPlayer (elements w)) = true →
    step w AudioEnded
      (onEnded (with_elements (λ e, set_audioPlayer (media_pause (audioPlayer e)) e) w))
| step_error w :
    step w AudioError (onError w)
| step_ms_play w :
    step w MediaSessionPlay (onMediaSessionPlay w)
| step_ms_pause w :
    step w MediaSessionPause (onMediaSessionPause w)
| step_ms_stop w :
    step w MediaSessionStop (onMediaSessionStop w)
| step_poll w h now t :
    timers (browser w) !! h = Some t → callback t = PollTick →
    step w (PollTimerFired h now) (onPollTimer now (clearTimeout h w))
| step_focus w h t :
    timers (browser w) !! h = Some t → callback t = FocusRelease →
    step w (FocusTimerFired h) (onFocusTimer (clearTimeout h w))
| step_status w h t :
    timers (browser w) !! h = Some t → callback t = StatusHide →
    step w (StatusTimerFired h) (onStatusTimer (clearTimeout h w))
| step_midnight w now :
    step w (MidnightCheck now) (onMidnightCheck now w)
| step_fetch w i k r now :
    fetches (browser w) !! i = Some k →
    step w (FetchSettled i r now) (onFetchSettled k r now (drop_fetch i w)).

(** The worlds a run of the page can be in. *)
Inductive reachable : World → Prop :=
| reachable_init now : reachable (init now)
| reachable_step w e w' : reachable w → step w e w' → reachable w'.

(** The three states of the playback session. *)
Inductive Status := Stopped | Playing | Paused.

(** Stopped: no current slot.  Otherwise the audio element's [paused] flag
    tells Playing from Paused. *)
Definition status (w : World) : Status :=
  match currentSlot (state w) with
  | None => Stopped
  | Some _ => if paused (audioPlayer (elements w)) then Paused else Playing
  end.

(** ** Further functions of app.js *)

#[global] Instance Continuation_eq_dec : EqDecision Continuation.
Proof. solve_decision. Defined.


(** [s.includes(searchString)].  The labels searched for are ASCII, so an
    occurrence among the bytes is an occurrence among the characters. *)
Fixpoint includes (s searchString : string) : bool :=
  String.prefix searchString s ||
  match s with
  | EmptyString => false
  | String _ rest => includes rest searchString
  end.

(** The loop of [extractSlotFromTitle]. *)
Fixpoint extractSlot_loop (slots : list Slot) (title : string) : option string :=
  match slots with
  | [] => None
  | s :: rest =>
      if includes title (time s) then Some (time s)
      else extractSlot_loop rest title
  end.

(** [extractSlotFromTitle(title)] *)
Definition extractSlotFromTitle (title : string) : option string :=
  extractSlot_loop CONFIG.SLOTS title.

(** [getSlotTimes()] *)
Definition getSlotTimes : list string := time <$> CONFIG.SLOTS.

(** What [parseRss] reads of an [<item>]: the text of [title] and [pubDate]
    and the [url] of the enclosure, each [''] when missing. *)
Record FeedItem := { item_title : string; item_pubDate : string; item_url : string }.

(** The two uses of [Date] on a [pubDate]: [parseRssDateToStockholm] (the
    day of the date in the configured timezone) and
    [parseRssDateToTimestamp]. *)
Record DateOps := {
  parseRssDateToStockholm : string → string;
  parseRssDateToTimestamp : string → Z
}.

(** The body of [items.forEach] in [parseRss]. *)
Definition parseRss_item (D : DateOps) (todayStr : string)
    (broadcasts : gmap string Broadcast) (item : FeedItem)
    : gmap string Broadcast :=
  let itemDate := parseRssDateToStockholm D (item_pubDate item) in
  if negb (String.eqb itemDate todayStr) then broadcasts
  else match extractSlotFromTitle (item_title item) with
       | Some slot =>
           if truthy slot then
             <[slot := {| title := item_title item;
                          pubDate := item_pubDate item;
                          timestamp := parseRssDateToTimestamp D (item_pubDate item);
                          audioUrl := item_url item;
                          slot := slot |}]> broadcasts
           else broadcasts
       | None => broadcasts
       end.

(** [parseRss(xmlText)] on the items of a well-formed document, with
    [todayStr = getStockholmDate()]. *)
Definition parseRss (D : DateOps) (todayStr : string) (items : list FeedItem)
    : gmap string Broadcast :=
  fold_left (parseRss_item D todayStr) items ∅.

(** [array.indexOf(x)]; [None] is -1. *)
Fixpoint indexOf (l : list string) (x : string) : option nat :=
  match l with
  | [] => None
  | y :: rest => if String.eqb y x then Some 0%nat else S <$> indexOf rest x
  end.

(** [getSortedSlots()], from the value of [findLatestBroadcast()]. *)
Definition getSortedSlots_of (latestSlot : option string) : list string :=
  let slotTimes := getSlotTimes in
  match latestSlot with
  | Some l =>
      if truthy l then
        match indexOf slotTimes l with
        | Some index => l :: delete index slotTimes
        | None => slotTimes
        end
      else slotTimes
  | None => slotTimes
  end.

Definition getSortedSlots (w : World) : list string :=
  getSortedSlots_of (findLatestBroadcast w).

(** A tile of [tilesContainer], as [renderTiles] builds it: its slot, the
    classes [active], [latest] and [playing], and whether it got the click
    listener. *)
Record Tile := {
  tile_slot : string;
  isActive : bool;
  isLatest : bool;
  isPlaying : bool;
  clickable : bool
}.

(** [renderTiles()]: the tiles in the order they are appended. *)
Definition renderTiles (w : World) : list Tile :=
  let latestSlot := findLatestBroadcast w in
  (λ slot,
     let isActive := bool_decide (is_Some (broadcasts (state w) !! slot)) in
     {| tile_slot := slot;
        isActive := isActive;
        isLatest := bool_decide (Some slot = latestSlot);
        isPlaying := bool_decide (currentSlot (state w) = Some slot);
        clickable := isActive |}) <$> getSortedSlots w.

(** The PWA build orders the tiles on a ring. *)
Module PWA.
(** [array.slice(index)] and [array.slice(0, index)]; an index of -1
    ([None]) counts from the end. *)
Definition slice_from (index : option nat) (l : list string) : list string :=
  match index with
  | Some i => drop i l
  | None => drop (length l - 1) l
  end.
Definition slice_to (index : option nat) (l : list string) : list string :=
  match index with
  | Some i => take i l
  | None => take (length l - 1) l
  end.

(** The ring of [getSortedSlots()]: the slots in order, starting from the
    latest. *)
Definition ring_of (latestSlot : option string) : list string :=
  let slotTimes := getSlotTimes in
  match latestSlot with
  | Some l =>
      if truthy l then
        let index := indexOf slotTimes l in
        slice_from index slotTimes ++ slice_to index slotTimes
      else slotTimes
  | None => slotTimes
  end.

(** [getSortedSlots()]: [[ring[0], ring[3], ring[1], ring[2]]]; a missing
    element is [undefined]. *)
Definition grid_of (latestSlot : option string) : list (option string) :=
  let ring := ring_of latestSlot in
  [ring !! 0%nat; ring !! 3%nat; ring !! 1%nat; ring !! 2%nat].

Definition getSortedSlots (w : World) : list (option string) :=
  grid_of (findLatestBroadcast w).
End PWA.

(** The position of the audio element, for [skipTime].  [num] stands for the
    JavaScript numbers other than NaN; a [duration] of NaN (no metadata yet)
    is [None]. *)
Record Playhead (num : Type) := { currentTime : num; duration : option num }.
Arguments currentTime {num}.
Arguments duration {num}.

(** The arithmetic [skipTime] uses: 0, [+] and the comparison behind
    [Math.min] and [Math.max]. *)
Record NumOps (num : Type) := {
  num_zero : num;
  num_add : num → num → num;
  num_leb : num → num → bool
}.
Arguments num_zero {num}.
Arguments num_add {num}.
Arguments num_leb {num}.

Definition Math_min {num} (N : NumOps num) (a b : num) : num :=
  if num_leb N a b then a else b.
Definition Math_max {num} (N : NumOps num) (a b : num) : num :=
  if num_leb N a b then b else a.

(** [skipTime(seconds)].  [duration || 0] is 0 for NaN and for 0. *)
Definition skipTime {num} (N : NumOps num) (seconds : num) (m : Media)
    (p : Playhead num) : Playhead num :=
  if src_truthy m then
    {| currentTime :=
         Math_max N (num_zero N)
           (Math_min N (default (num_zero N) (duration p))
                       (num_add N (currentTime p) seconds));
       duration := duration p |}
  else p.

(** * The vocabulary of the properties *)

(** ** findLatestBroadcast *)

(** Slot [i] of [slots] holds the broadcast [b] whose timestamp is the
    maximum over the slots, and no earlier slot reaches it. *)
Definition first_max (bs : gmap string Broadcast) (slots : list Slot)
    (i : nat) (s : Slot) (b : Broadcast) : Prop :=
  slots !! i = Some s ∧ bs !! time s = Some b ∧
  (∀ j s' b', slots !! j = Some s' → bs !! time s' = Some b' →
              timestamp b' ≤ timestamp b) ∧
  (∀ j s' b', (j < i)%nat → slots !! j = Some s' → bs !! time s' = Some b' →
              timestamp b' < timestamp b).

(** What the two locals hold after the loop has gone through [slots]. *)
Definition latest_inv (bs : gmap string Broadcast) (slots : list Slot)
    (acc : option string * Z) : Prop :=
  0 ≤ snd acc ∧
  (∀ j s b, slots !! j = Some s → bs !! time s = Some b → timestamp b ≤ snd acc) ∧
  (fst acc = None → snd acc = 0) ∧
  (∀ x, fst acc = Some x →
     ∃ i s b, first_max bs slots i s b ∧ time s = x ∧
              timestamp b = snd acc ∧ 0 < snd acc).

(** The claim of the specification about [findLatest], for one store: none
    on the empty store, and otherwise the first slot that holds the maximum
    timestamp. *)
Definition findLatest_spec (bs : gmap string Broadcast) : Prop :=
  (bs = ∅ → findLatestBroadcast_of bs = None) ∧
  (∀ i s b, first_max bs CONFIG.SLOTS i s b →
            findLatestBroadcast_of bs = Some (time s)).

(** ** calculatePollInterval *)

(** [diff = currentMinutes - pollStartMinutes] lies in the active window. *)
Definition in_active (currentMinutes : Z) (s : Slot) : Prop :=
  0 ≤ currentMinutes - pollStartMinutes s ≤ CONFIG.ACTIVE_WINDOW.

(** [diff] lies in the extended window. *)
Definition in_extended (currentMinutes : Z) (s : Slot) : Prop :=
  CONFIG.ACTIVE_WINDOW < currentMinutes - pollStartMinutes s ≤ CONFIG.EXTENDED_WINDOW.

(** The slot has no broadcast yet and [diff] lies in one of the windows. *)
Definition qualifies (bs : gmap string Broadcast) (currentMinutes : Z)
    (s : Slot) : Prop :=
  bs !! time s = None ∧ (in_active currentMinutes s ∨ in_extended currentMinutes s).

(** ** updateBroadcasts and checkDayChange *)

(** A run of successful fetches, each merged by [updateBroadcasts]. *)
Definition merges (incoming : list (Now * gmap string Broadcast)) (w : World)
    : World :=
  fold_left (λ w '(now, items), updateBroadcasts_resume now (Some items) w)
            incoming w.

(** The number of resets in a run of [checkDayChange()] calls at the clock
    readings [days]. *)
Fixpoint countResets (days : list Now) (w : World) : nat :=
  match days with
  | [] => 0
  | now :: rest =>
      let '(w', fired) := checkDayChange now w in
      ((if fired then 1 else 0) + countResets rest w')%nat
  end.

(** The number of day boundaries crossed going from date [d] through the
    dates [days]. *)
Fixpoint crossings (d : string) (days : list string) : nat :=
  match days with
  | [] => 0
  | d' :: rest => ((if String.eqb d d' then 0 else 1) + crossings d' rest)%nat
  end.

(** ** Invariants of the reachable worlds *)

(** Every pending poll timeout is the one [state.pollTimer] names, and every
    pending focus timeout is the one [state.audioFocusTimer] names. *)
Definition single_instance (w : World) : Prop :=
  ∀ h t, timers (browser w) !! h = Some t →
    (callback t = PollTick → pollTimer (state w) = Some h) ∧
    (callback t = FocusRelease → audioFocusTimer (state w) = Some h).

(** Handles in use lie below the next handle [setTimeout] gives out. *)
Definition fresh (w : World) : Prop :=
  (∀ h t, timers (browser w) !! h = Some t → (h < nextHandle (browser w))%positive) ∧
  (∀ h, pollTimer (state w) = Some h → (h < nextHandle (browser w))%positive) ∧
  (∀ h, audioFocusTimer (state w) = Some h → (h < nextHandle (browser w))%positive).

(** While a focus timer is set the audio element is paused. *)
Definition focus_paused (w : World) : Prop :=
  is_Some (audioFocusTimer (state w)) → paused (audioPlayer (elements w)) = true.

(** A current slot has its source loaded. *)
Definition slot_loaded (w : World) : Prop :=
  is_Some (currentSlot (state w)) → loaded (audioPlayer (elements w)) = true.


(** ** Further vocabulary *)

(** The events of a run whose fetched items are what [parseRss] makes of a
    feed on the day the response arrives. *)
Definition from_feed (e : Event) : Prop :=
  match e with
  | FetchSettled _ (Parsed _ _ items) now =>
      ∃ D feed, items = parseRss D (today now) feed
  | _ => True
  end.

(** The clock reading an event's handler takes, if it takes one. *)
Definition event_now (e : Event) : option Now :=
  match e with
  | PollTimerFired _ now | MidnightCheck now | FetchSettled _ _ now => Some now
  | _ => None
  end.

(** The clock gives a date, not the empty string. *)
Definition dated (now : Now) : Prop := truthy (today now) = true.

(** The worlds of the runs whose events satisfy [ok] and whose clock
    readings are dates. *)
Inductive reachable_when (ok : Event → Prop) : World → Prop :=
| reachable_when_init now : dated now → reachable_when ok (init now)
| reachable_when_step w e w' :
    reachable_when ok w → ok e →
    (∀ now, event_now e = Some now → dated now) →
    step w e w' → reachable_when ok w'.

(** The current slot has a broadcast in the store. *)
Definition slot_present (w : World) : Prop :=
  ∀ s, currentSlot (state w) = Some s → is_Some (broadcasts (state w) !! s).

(** The focus handle names a pending focus timeout, and the silent player
    plays only while the handle is set. *)
Definition focus_pending (w : World) : Prop :=
  (∀ h, audioFocusTimer (state w) = Some h →
        timers (browser w) !! h
        = Some {| callback := FocusRelease; delay := CONFIG.AUDIO_FOCUS_TIMEOUT |}) ∧
  (paused (silencePlayer (elements w)) = false →
   is_Some (audioFocusTimer (state w))).

(** The number of [updateBroadcasts()] calls of the poll loop that are
    suspended at their [await]. *)
Definition polls_in_flight (w : World) : nat :=
  length (filter (λ k, k = ThenSchedulePoll) (fetches (browser w))).

(** A poll timeout is pending. *)
Definition poll_pending (w : World) : Prop :=
  ∃ h t, timers (browser w) !! h = Some t ∧ callback t = PollTick.

(** [l] occurs in [title]. *)
Definition occurs_in (l title : string) : Prop :=
  ∃ pre post, title = pre +:+ l +:+ post.

(** The broadcast [parseRss] makes of an item for slot [slot]. *)
Definition item_broadcast (D : DateOps) (item : FeedItem) (slot : string)
    : Broadcast :=
  {| title := item_title item; pubDate := item_pubDate item;
     timestamp := parseRssDateToTimestamp D (item_pubDate item);
     audioUrl := item_url item; slot := slot |}.

(** [parseRss] stores the item under [slot]: it is dated today and its
    title yields [slot]. *)
Definition stored_under (D : DateOps) (todayStr : string) (item : FeedItem)
    (slot : string) : Prop :=
  parseRssDateToStockholm D (item_pubDate item) = todayStr ∧
  extractSlotFromTitle (item_title item) = Some slot.

(** The keys of the store are configured labels. *)
Definition keys_configured (w : World) : Prop :=
  ∀ k, is_Some (broadcasts (state w) !! k) → k ∈ getSlotTimes.

(** The stored date is a date. *)
Definition date_stored (w : World) : Prop :=
  ∃ d, lastFetchDate (state w) = Some d ∧ truthy d = true.

(** The poll handle, while its timeout is pending, names a poll timeout. *)
Definition poll_handle (w : World) : Prop :=
  ∀ h t, pollTimer (state w) = Some h → timers (browser w) !! h = Some t →
         callback t = PollTick.

(** 1 while the timeout that [state.pollTimer] names is pending, else 0. *)
Definition poll_armed (w : World) : nat :=
  match pollTimer (state w) with
  | Some h => if timers (browser w) !! h is Some _ then 1 else 0
  | None => 0
  end.

(** The poll loop is in one place: its timeout pending, or one of its
    fetches under way. *)
Definition poll_phase (w : World) : Prop :=
  (poll_armed w + polls_in_flight w = 1)%nat.

(** * A run of the page *)

(** A broadcast of slot [label] published at [ts]. *)
Definition ekot (label : string) (ts : Z) : Broadcast :=
  {| title := "Ekot " +:+ label; pubDate := ""; timestamp := ts;
     audioUrl := "https://sverigesradio.se/ekot.mp3"; slot := label |}.

(** Clock readings of the examples. *)
Definition at_time (h m : Z) : Now :=
  {| today := "2026-02-09"; nowHour := h; nowMinute := m |}.

(** Midnight of a day of February 2026. *)
Definition feb (day : string) : Now :=
  {| today := "2026-02-" +:+ day; nowHour := 0; nowMinute := 0 |}.

(** 08:30, ten minutes into the active window of the 08:00 slot. *)
Definition morning : Now := at_time 8 30.

(** The first fetch brings the 08:00 broadcast; the poll timer is armed. *)
Definition w_fetched : World :=
  onFetchSettled ThenSchedulePoll
    (Parsed None None {[ "08:00" := ekot "08:00" 1770620400000 ]})
    morning (drop_fetch 0 (init morning)).

(** The user clicks the 08:00 tile. *)
Definition w_playing : World := playBroadcast "08:00" w_fetched.

(** The user clicks play/pause while it plays. *)
Definition w_paused : World := togglePlayPause w_playing.

(** The user clicks play/pause again. *)
Definition w_resumed : World := togglePlayPause w_paused.

(** The audio element reaches the end of its source while paused (the user
    skips forward to the end): ['ended'] is dispatched. *)
Definition w_ended : World :=
  onEnded (with_elements (λ e, set_audioPlayer (media_pause (audioPlayer e)) e) w_paused).

(** The broadcast plays to its end. *)
Definition w_played_out : World :=
  onEnded (with_elements (λ e, set_audioPlayer (media_pause (audioPlayer e)) e) w_playing).

(** Then the user clicks play/pause twice: the first click replays the
    source that is still loaded, the second pauses it. *)
Definition w_repaused : World := togglePlayPause (togglePlayPause w_played_out).

(** The poll timeout of [w_fetched] fires a minute later. *)
Definition w_polled : World := onPollTimer (at_time 8 31) (clearTimeout 1 w_fetched).

(** Positions in whole seconds. *)
Definition Z_seconds : NumOps Z :=
  {| num_zero := 0; num_add := Z.add; num_leb := Z.leb |}.

(** Dates as the examples use them: the day is the first ten characters,
    the timestamp is not looked at. *)
Definition day_prefix : DateOps :=
  {| parseRssDateToStockholm := λ d, String.substring 0 10 d;
     parseRssDateToTimestamp := λ _, 1 |}.

(** The feed of the morning: yesterday's last broadcast and today's first. *)
Definition morning_feed : list FeedItem :=
  [ {| item_title := "Ekot 17:45"; item_pubDate := "2026-02-08 17:50";
       item_url := "https://sverigesradio.se/1745.mp3" |};
    {| item_title := "Ekot 08:00"; item_pubDate := "2026-02-09 08:05";
       item_url := "https://sverigesradio.se/0800.mp3" |} ].

(** The first fetch, parsed from the morning's feed. *)
Definition w_parsed : World :=
  onFetchSettled ThenSchedulePoll
    (Parsed None None (parseRss day_prefix (today morning) morning_feed))
    morning (drop_fetch 0 (init morning)).

(** The poll timeout of [w_fetched] fires at 23:59 on 9 February: the day
    check sees the 9th and the request goes out. *)
Definition w_late_poll : World :=
  onPollTimer (at_time 23 59) (clearTimeout 1 w_fetched).

(** The response arrives after midnight; the feed has no item of the 10th
    yet. *)
Definition late_response : FetchOutcome :=
  Parsed None None (parseRss day_prefix (today (feb "10")) morning_feed).

Definition w_next_day : World :=
  onFetchSettled ThenSchedulePoll late_response (feb "10") (drop_fetch 0 w_late_poll).

(** The next minute check, on 10 February. *)
Definition w_stale : World := onMidnightCheck (feb "10") w_next_day.

(** * Tactics *)

(** Projections of updated records, and the functions that only compose
    updates. *)
Ltac proj :=
  cbn [state elements browser timers nextHandle fetches plays
       broadcasts currentSlot lastFetchDate pollTimer lastEtag lastModified
       audioFocusTimer audioPlayer silencePlayer statusMessage src paused
       callback delay
       set_broadcasts set_currentSlot set_lastFetchDate set_pollTimer
       set_cacheHeaders set_audioFocusTimer set_audioPlayer set_silencePlayer
       set_statusMessage media_play media_pause media_set_src fst snd
       onStatusTimer onEnded onPlayRejected showStatus setTimeout clearTimeout
       push_fetch drop_fetch set_plays with_state with_elements with_browser
       init world0 state0] in *.

(** All the paths through the handler of one event: the functions that
    branch are opened, each branch is taken, and the projections are
    reduced. *)
Ltac handler_paths :=
  unfold onMidnightCheck, onFetchSettled, fetchRss_settle, onPollTimer,
    onFocusTimer, onError, onMediaSessionStop, onMediaSessionPause,
    onMediaSessionPlay, togglePlayPause, playBroadcast, updateBroadcasts_begin,
    updateBroadcasts_resume, schedulePoll, checkDayChange, resetForNewDay,
    startAudioFocusKeepAlive, stopPlayback, stopAudioFocusKeepAlive in *;
  proj; repeat (case_match; proj; simplify_eq).

(** Lookups in a timer table after [setTimeout] and [clearTimeout]. *)
Ltac map_hyps :=
  repeat match goal with
  | H : <[_:=_]> _ !! _ = Some _ |- _ =>
      apply lookup_insert_Some in H as [[<- <-]|[? H]]
  | H : delete _ _ !! _ = Some _ |- _ =>
      apply lookup_delete_Some in H as [? H]
  end.

(** * Properties *)

(** ** findLatestBroadcast *)

Section FindLatest.
Context (bs : gmap string Broadcast).

Lemma findLatest_loop_snoc slots s acc :
  findLatest_loop (slots ++ [s]) bs acc
  = findLatest_body bs (findLatest_loop slots bs acc) s.
Proof. unfold findLatest_loop. by rewrite fold_left_app. Qed.

Lemma first_max_snoc_keep slots s i si b :
  first_max bs slots i si b →
  (∀ b', bs !! time s = Some b' → timestamp b' ≤ timestamp b) →
  first_max bs (slots ++ [s]) i si b.
Proof.
  intros (Hi & Hb & Hmax & Hfirst) Hs.
  assert (Hlen : (i < length slots)%nat) by (by eapply lookup_lt_Some).
  split_and!; [by rewrite lookup_app_l | done | |].
  - intros j s' b' Hj Hb'.
    destruct (decide (j < length slots)%nat) as [Hlt|Hge].
    + rewrite lookup_app_l in Hj by done. eauto.
    + rewrite lookup_app_r in Hj by lia.
      destruct (j - length slots)%nat; simplify_eq/=; eauto.
  - intros j s' b' Hji Hj Hb'.
    rewrite lookup_app_l in Hj by lia. eauto.
Qed.

Lemma latest_inv_step slots acc s :
  latest_inv bs slots acc → latest_inv bs (slots ++ [s]) (findLatest_body bs acc s).
Proof.
  intros (Hnn & Hub & Hnone & Hsome).
  assert (Hcase : ∀ j s' b', (slots ++ [s]) !! j = Some s' →
            bs !! time s' = Some b' →
            (j < length slots)%nat ∧ slots !! j = Some s'
            ∨ j = length slots ∧ s' = s).
  { intros j s' b' Hj _.
    destruct (decide (j < length slots)%nat) as [Hlt|Hge].
    - left. split; [done|]. by rewrite lookup_app_l in Hj.
    - right. rewrite lookup_app_r in Hj by lia.
      destruct (j - length slots)%nat eqn:E; simplify_eq/=.
      split; [lia | done]. }
  unfold findLatest_body.
  destruct (bs !! time s) as [b|] eqn:Hb.
  - destruct (Z.gtb_spec (timestamp b) (snd acc)) as [Hgt|Hle].
    + (* the new slot takes over *)
      split_and!; simpl; [lia | | done |].
      * intros j s' b' Hj Hb'.
        destruct (Hcase _ _ _ Hj Hb') as [[_ Hj']|[_ ->]].
        -- specialize (Hub _ _ _ Hj' Hb'). lia.
        -- rewrite Hb in Hb'. simplify_eq. lia.
      * intros x [= <-]. exists (length slots), s, b.
        split_and!; [| done | done | lia].
        split_and!; [by rewrite lookup_app_r, Nat.sub_diag by lia | done | |].
        -- intros j s' b' Hj Hb'.
           destruct (Hcase _ _ _ Hj Hb') as [[_ Hj']|[_ ->]].
           ++ specialize (Hub _ _ _ Hj' Hb'). lia.
           ++ rewrite Hb in Hb'. simplify_eq. lia.
        -- intros j s' b' Hlt Hj Hb'.
           rewrite lookup_app_l in Hj by lia.
           specialize (Hub _ _ _ Hj Hb'). lia.
    + (* the locals stay *)
      split_and!; [done | | done |].
      * intros j s' b' Hj Hb'.
        destruct (Hcase _ _ _ Hj Hb') as [[_ Hj']|[_ ->]]; [eauto|].
        rewrite Hb in Hb'. by simplify_eq.
      * intros x Hx. destruct (Hsome x Hx) as (i & si & bi & Hfm & ? & Hts & ?).
        exists i, si, bi. split_and!; [| done..].
        apply first_max_snoc_keep; [done|].
        intros b' Hb'. rewrite Hb in Hb'. simplify_eq. lia.
  - split_and!; [done | | done |].
    + intros j s' b' Hj Hb'.
      destruct (Hcase _ _ _ Hj Hb') as [[_ Hj']|[_ ->]]; [eauto|].
      by rewrite Hb in Hb'.
    + intros x Hx. destruct (Hsome x Hx) as (i & si & bi & Hfm & ? & Hts & ?).
      exists i, si, bi. split_and!; [| done..].
      apply first_max_snoc_keep; [done|].
      intros b' Hb'. by rewrite Hb in Hb'.
Qed.

Lemma latest_inv_loop slots :
  latest_inv bs slots (findLatest_loop slots bs (None, 0)).
Proof.
  induction slots as [|s slots IH] using rev_ind.
  - split_and!; simpl; [lia | | done | done].
    intros j s b Hj. by rewrite lookup_nil in Hj.
  - rewrite findLatest_loop_snoc. by apply latest_inv_step.
Qed.

(** The loop returns the first slot that holds the maximum, provided the
    maximum is above the initial [latestTimestamp = 0]. *)
Lemma findLatest_loop_first_max slots i s b :
  first_max bs slots i s b → 0 < timestamp b →
  fst (findLatest_loop slots bs (None, 0)) = Some (time s).
Proof.
  intros (Hi & Hb & Hmax & Hfirst) Hpos.
  destruct (latest_inv_loop slots) as (_ & Hub & Hnone & Hsome).
  destruct (fst (findLatest_loop slots bs (None, 0))) as [x|] eqn:Hx.
  - destruct (Hsome x eq_refl) as (i' & s' & b' & (Hi' & Hb' & Hmax' & Hfirst') & <- & Hts & _).
    assert (timestamp b = timestamp b').
    { specialize (Hmax _ _ _ Hi' Hb'). specialize (Hmax' _ _ _ Hi Hb). lia. }
    destruct (Nat.lt_trichotomy i i') as [Hlt|[->|Hgt]].
    + specialize (Hfirst' _ _ _ Hlt Hi Hb). lia.
    + by simplify_eq.
    + specialize (Hfirst _ _ _ Hgt Hi' Hb'). lia.
  - specialize (Hnone eq_refl). specialize (Hub _ _ _ Hi Hb). lia.
Qed.

(** A returned label names a stored broadcast with a positive timestamp. *)
Lemma findLatest_loop_Some slots x :
  fst (findLatest_loop slots bs (None, 0)) = Some x →
  ∃ i s b, first_max bs slots i s b ∧ time s = x ∧ 0 < timestamp b.
Proof.
  intros Hx. destruct (latest_inv_loop slots) as (_ & _ & _ & Hsome).
  destruct (Hsome x Hx) as (i & s & b & ? & ? & ? & ?).
  exists i, s, b. split_and!; [done | done | lia].
Qed.
End FindLatest.

Example findLatest_empty : findLatestBroadcast_of ∅ = None.
Proof. reflexivity. Qed.

Example findLatest_two :
  findLatestBroadcast_of {[ "08:00" := ekot "08:00" 100; "12:30" := ekot "12:30" 200 ]}
  = Some "12:30".
Proof. vm_compute. reflexivity. Qed.

Example findLatest_tie :
  findLatestBroadcast_of {[ "12:30" := ekot "12:30" 100; "16:45" := ekot "16:45" 100 ]}
  = Some "12:30".
Proof. vm_compute. reflexivity. Qed.

Example findLatest_epoch :
  findLatestBroadcast_of {[ "08:00" := ekot "08:00" 0 ]} = None.
Proof. vm_compute. reflexivity. Qed.

(** C1, as stated, fails: a store whose only broadcast, in slot 08:00, has
    timestamp 0 is not empty and slot 08:00 holds the maximum, yet
    [findLatestBroadcast] returns none. *)
Lemma findLatest_spec_fails_at_epoch :
  ¬ findLatest_spec {[ "08:00" := ekot "08:00" 0 ]}.
Proof.
  intros [_ H].
  specialize (H 0%nat {| time := "08:00"; pollStart := {| hour := 8; minute := 20 |} |}
                (ekot "08:00" 0)).
  rewrite findLatest_epoch in H. enough (None = Some "08:00") by done.
  apply H. split_and!; [done | done | |].
  - intros j s' b' _ Hb'. apply lookup_singleton_Some in Hb' as [_ <-]. done.
  - intros j s' b' Hj. lia.
Qed.

(** C1 (amended): for every store, [findLatestBroadcast] returns none when
    the store is empty, and when some slot holds the maximum timestamp and
    that maximum is greater than 0, it returns the label of the first slot,
    in the configured order, that holds it; on equal timestamps the earlier
    slot is returned. *)
Theorem findLatestBroadcast_first_max (w : World) :
  (broadcasts (state w) = ∅ → findLatestBroadcast w = None) ∧
  (∀ i s b, first_max (broadcasts (state w)) CONFIG.SLOTS i s b →
            0 < timestamp b →
            findLatestBroadcast w = Some (time s)).
Proof.
  unfold findLatestBroadcast, findLatestBroadcast_of. split.
  - intros ->. reflexivity.
  - intros i s b Hfm Hpos. by eapply findLatest_loop_first_max.
Qed.

(** C10: when every broadcast of the store has a timestamp of at most 0,
    [findLatestBroadcast] returns none, also for a store that is not empty;
    and a label it returns is the label of a stored broadcast whose
    timestamp is greater than 0. *)
Theorem findLatestBroadcast_needs_positive (w : World) :
  ((∀ k b, broadcasts (state w) !! k = Some b → timestamp b ≤ 0) →
   findLatestBroadcast w = None) ∧
  (∀ x, findLatestBroadcast w = Some x →
        ∃ b, broadcasts (state w) !! x = Some b ∧ 0 < timestamp b).
Proof.
  unfold findLatestBroadcast, findLatestBroadcast_of. split.
  - intros Hle.
    destruct (fst (findLatest_loop CONFIG.SLOTS (broadcasts (state w)) (None, 0)))
      as [x|] eqn:Hx; [|done].
    apply findLatest_loop_Some in Hx as (i & s & b & (_ & Hb & _) & _ & Hpos).
    specialize (Hle _ _ Hb). lia.
  - intros x Hx.
    apply findLatest_loop_Some in Hx as (i & s & b & (_ & Hb & _) & <- & Hpos).
    eauto.
Qed.

(** ** calculatePollInterval *)

Section PollInterval.
Context (bs : gmap string Broadcast) (currentMinutes : Z).

Lemma pollInterval_loop_skip s rest :
  ¬ qualifies bs currentMinutes s →
  pollInterval_loop (s :: rest) currentMinutes bs
  = pollInterval_loop rest currentMinutes bs.
Proof.
  unfold qualifies, in_active, in_extended. intros Hq. simpl.
  destruct (bs !! time s); [done|].
  repeat case_bool_decide || case_match; try done;
    exfalso; apply Hq; split; [done | lia | done | lia].
Qed.

Lemma pollInterval_loop_active s rest :
  bs !! time s = None → in_active currentMinutes s →
  pollInterval_loop (s :: rest) currentMinutes bs = CONFIG.POLL_INTERVALS.ACTIVE.
Proof.
  unfold in_active. intros Habs H. simpl. rewrite Habs.
  case_match; [done | lia].
Qed.

Lemma pollInterval_loop_extended s rest :
  bs !! time s = None → in_extended currentMinutes s →
  pollInterval_loop (s :: rest) currentMinutes bs = CONFIG.POLL_INTERVALS.EXTENDED.
Proof.
  unfold in_extended. intros Habs H. simpl. rewrite Habs.
  repeat case_match; [lia | done | lia].
Qed.

(** The first slot, in order, that qualifies decides the interval. *)
Lemma pollInterval_loop_first slots i s :
  slots !! i = Some s → qualifies bs currentMinutes s →
  (∀ j s', (j < i)%nat → slots !! j = Some s' → ¬ qualifies bs currentMinutes s') →
  pollInterval_loop slots currentMinutes bs
  = pollInterval_loop [s] currentMinutes bs.
Proof.
  revert i. induction slots as [|s0 rest IH]; intros i Hi Hq Hbefore; [done|].
  destruct i as [|i]; simpl in Hi; simplify_eq.
  - destruct Hq as [Habs [Ha|He]].
    + rewrite !(pollInterval_loop_active _ _ Habs Ha). done.
    + rewrite !(pollInterval_loop_extended _ _ Habs He). done.
  - rewrite pollInterval_loop_skip; [|by apply (Hbefore 0%nat); [lia|]].
    apply (IH i); [done | done |].
    intros j s' Hj Hs'. apply (Hbefore (S j)); [lia | done].
Qed.

Lemma pollInterval_loop_idle slots :
  (∀ s, s ∈ slots → ¬ qualifies bs currentMinutes s) →
  pollInterval_loop slots currentMinutes bs = CONFIG.POLL_INTERVALS.IDLE.
Proof.
  induction slots as [|s rest IH]; intros Hall; [done|].
  rewrite pollInterval_loop_skip; [|apply Hall; by left].
  apply IH. intros s' Hs'. apply Hall. by right.
Qed.
End PollInterval.

Example pollInterval_skips_present :
  calculatePollInterval_of (at_time 13 5) {[ "08:00" := ekot "08:00" 100 ]}
  = CONFIG.POLL_INTERVALS.ACTIVE ∧
  calculatePollInterval_of (at_time 8 25) {[ "08:00" := ekot "08:00" 100 ]}
  = CONFIG.POLL_INTERVALS.IDLE ∧
  calculatePollInterval_of (at_time 8 19) ∅ = CONFIG.POLL_INTERVALS.IDLE ∧
  calculatePollInterval_of (at_time 8 30) ∅ = CONFIG.POLL_INTERVALS.ACTIVE ∧
  calculatePollInterval_of (at_time 8 50) ∅ = CONFIG.POLL_INTERVALS.EXTENDED ∧
  calculatePollInterval_of (at_time 8 51) ∅ = CONFIG.POLL_INTERVALS.IDLE.
Proof. vm_compute. done. Qed.

(** C2: [calculatePollInterval] goes through the slots in the configured
    order; the first slot without a broadcast whose [diff] lies in a window
    decides: ACTIVE for [0 ≤ diff ≤ ACTIVE_WINDOW], EXTENDED for
    [ACTIVE_WINDOW < diff ≤ EXTENDED_WINDOW]; slots with a broadcast and
    slots outside both windows are passed over, and IDLE is returned when no
    slot qualifies.  With slot 08:00 absent it returns ACTIVE at 08:25,
    EXTENDED at 08:35 and IDLE at 08:55. *)
Theorem calculatePollInterval_windows (now : Now) (w : World) :
  let bs := broadcasts (state w) in
  let cm := nowHour now * 60 + nowMinute now in
  (∀ i s, CONFIG.SLOTS !! i = Some s → bs !! time s = None →
     (∀ j s', (j < i)%nat → CONFIG.SLOTS !! j = Some s' → ¬ qualifies bs cm s') →
     (in_active cm s → calculatePollInterval now w = CONFIG.POLL_INTERVALS.ACTIVE) ∧
     (in_extended cm s → calculatePollInterval now w = CONFIG.POLL_INTERVALS.EXTENDED)) ∧
  ((∀ s, s ∈ CONFIG.SLOTS → ¬ qualifies bs cm s) →
   calculatePollInterval now w = CONFIG.POLL_INTERVALS.IDLE) ∧
  (bs !! "08:00" = None →
   calculatePollInterval (at_time 8 25) w = CONFIG.POLL_INTERVALS.ACTIVE ∧
   calculatePollInterval (at_time 8 35) w = CONFIG.POLL_INTERVALS.EXTENDED ∧
   calculatePollInterval (at_time 8 55) w = CONFIG.POLL_INTERVALS.IDLE).
Proof.
  intros bs cm. unfold calculatePollInterval, calculatePollInterval_of.
  fold bs. split_and!.
  - intros i s Hi Habs Hbefore. fold cm. split; intros Hwin.
    + rewrite (pollInterval_loop_first bs cm _ i s Hi); [| by split; [|left] | done].
      by apply pollInterval_loop_active.
    + rewrite (pollInterval_loop_first bs cm _ i s Hi); [| by split; [|right] | done].
      by apply pollInterval_loop_extended.
  - intros Hall. by apply pollInterval_loop_idle.
  - intros H0800. split_and!.
    + by apply pollInterval_loop_active.
    + by apply pollInterval_loop_extended.
    + apply pollInterval_loop_idle. intros s Hs [_ Hwin].
      unfold in_active, in_extended, pollStartMinutes,
        CONFIG.ACTIVE_WINDOW, CONFIG.EXTENDED_WINDOW in Hwin.
      repeat (apply elem_of_cons in Hs as [->|Hs]); [simpl in Hwin; lia..|].
      by apply elem_of_nil in Hs.
Qed.

(** ** updateBroadcasts: the merge *)

Lemma Object_assign_lookup (target source : gmap string Broadcast) k :
  Object_assign target source !! k
  = match source !! k with Some b => Some b | None => target !! k end.
Proof.
  unfold Object_assign. rewrite lookup_union.
  destruct (source !! k), (target !! k); reflexivity.
Qed.

Lemma filter_key_absent {V} (k : string) (l : list (string * V)) :
  k ∉ l.*1 → filter (λ e, e.1 = k) l = [].
Proof.
  induction l as [|[k' v] l IH]; [done|]. simpl.
  intros [Hne Hnotin]%not_elem_of_cons.
  rewrite filter_cons_False by (simpl; congruence). by apply IH.
Qed.

(** In a list of pairs with distinct keys, at most one pair has key [k]. *)
Lemma NoDup_fst_filter_length {V} (k : string) (l : list (string * V)) :
  NoDup l.*1 → (length (filter (λ e, e.1 = k) l) ≤ 1)%nat.
Proof.
  induction l as [|[k' v] l IH]; simpl; [lia|].
  intros [Hnotin Hnd]%NoDup_cons. specialize (IH Hnd).
  rewrite filter_cons. case_decide as Hk; simpl in *; [|done].
  subst k'. rewrite filter_key_absent by done. simpl. lia.
Qed.

Example merge_older_replaces_newer :
  let w := with_state (set_broadcasts {[ "08:00" := ekot "08:00" 200 ]}) world0 in
  broadcasts (state (updateBroadcasts_resume (at_time 9 0)
                       (Some {[ "08:00" := ekot "08:00" 100 ]}) w)) !! "08:00"
  = Some (ekot "08:00" 100).
Proof. vm_compute. reflexivity. Qed.

(** C3: after any sequence of merges, one more merge writes every incoming
    entry over the entry of its slot, whatever the two timestamps are, and
    leaves the slots without an incoming entry as they were; the store holds
    at most one broadcast under a slot label. *)
Theorem updateBroadcasts_merge_overwrites
    (w : World) (earlier : list (Now * gmap string Broadcast))
    (now : Now) (items : gmap string Broadcast) (k : string) :
  let w1 := merges earlier w in
  let w2 := updateBroadcasts_resume now (Some items) w1 in
  (∀ b, items !! k = Some b → broadcasts (state w2) !! k = Some b) ∧
  (items !! k = None → broadcasts (state w2) !! k = broadcasts (state w1) !! k) ∧
  (length (filter (λ e, e.1 = k) (map_to_list (broadcasts (state w2)))) ≤ 1)%nat.
Proof.
  intros w1 w2. subst w2. simpl. split_and!.
  - intros b Hb. by rewrite Object_assign_lookup, Hb.
  - intros Hb. by rewrite Object_assign_lookup, Hb.
  - apply NoDup_fst_filter_length, NoDup_fst_map_to_list.
Qed.

(** ** checkDayChange *)

Lemma truthy_spec s : truthy s = true ↔ s ≠ "".
Proof. by destruct s. Qed.

(** An element with a source has the [src] attribute. *)
Lemma loaded_src_truthy m : loaded m = true → src_truthy m = true.
Proof. unfold loaded, src_truthy. by destruct (src m). Qed.

Lemma stopAudioFocusKeepAlive_state w :
  state (stopAudioFocusKeepAlive w)
  = set_audioFocusTimer None (state w).
Proof.
  unfold stopAudioFocusKeepAlive.
  destruct (state w) as [? ? ? ? ? ? [h|]] eqn:E; simpl; rewrite ?E; reflexivity.
Qed.

Lemma stopAudioFocusKeepAlive_audioPlayer w :
  audioPlayer (elements (stopAudioFocusKeepAlive w)) = audioPlayer (elements w).
Proof. unfold stopAudioFocusKeepAlive. by destruct (audioFocusTimer _). Qed.

Lemma stopAudioFocusKeepAlive_silencePlayer w :
  silencePlayer (elements (stopAudioFocusKeepAlive w)) = {| src := Some ""; paused := true |}.
Proof. unfold stopAudioFocusKeepAlive. by destruct (audioFocusTimer _). Qed.

Lemma stopPlayback_state w :
  state (stopPlayback w)
  = set_currentSlot None (set_audioFocusTimer None (state w)).
Proof.
  unfold stopPlayback, with_state, with_elements. cbn [state].
  by rewrite stopAudioFocusKeepAlive_state.
Qed.

Lemma stopPlayback_elements w :
  audioPlayer (elements (stopPlayback w)) = {| src := Some ""; paused := true |} ∧
  silencePlayer (elements (stopPlayback w)) = {| src := Some ""; paused := true |}.
Proof.
  unfold stopPlayback, with_state, with_elements.
  cbn [elements audioPlayer silencePlayer set_audioPlayer].
  by rewrite stopAudioFocusKeepAlive_silencePlayer.
Qed.

Lemma resetForNewDay_state now w :
  state (resetForNewDay now w)
  = {| broadcasts := ∅; currentSlot := None;
       lastFetchDate := Some (today now); pollTimer := pollTimer (state w);
       lastEtag := lastEtag (state w); lastModified := lastModified (state w);
       audioFocusTimer := None |}.
Proof. unfold resetForNewDay. by rewrite stopPlayback_state. Qed.

(** What [checkDayChange] does when a date is stored. *)
Lemma checkDayChange_stored now w d :
  lastFetchDate (state w) = Some d → truthy d = true →
  checkDayChange now w
  = if String.eqb d (today now) then (w, false) else (resetForNewDay now w, true).
Proof.
  intros Hd Ht. unfold checkDayChange. rewrite Hd, Ht. simpl.
  by destruct (String.eqb d (today now)).
Qed.

Lemma countResets_crossings days : ∀ w d,
  lastFetchDate (state w) = Some d → truthy d = true →
  Forall (λ now, truthy (today now) = true) days →
  countResets days w = crossings d (today <$> days).
Proof.
  induction days as [|now rest IH]; intros w d Hd Ht Hall; [done|].
  apply Forall_cons in Hall as [Hnow Hrest]. simpl.
  rewrite (checkDayChange_stored now w d Hd Ht).
  destruct (String.eqb_spec d (today now)) as [<-|Hne].
  - f_equal. by apply IH.
  - f_equal. apply IH; [|done..]. by rewrite resetForNewDay_state.
Qed.

(** Before [init()] has stored a date the guard [state.lastFetchDate &&]
    keeps [checkDayChange] from resetting. *)
Example checkDayChange_unset now : checkDayChange now world0 = (world0, false).
Proof. reflexivity. Qed.

(** One call of [checkDayChange], with a date stored: it compares the date
    to today's.  When they differ it empties the broadcasts, clears the
    playback (no current slot, audio element unloaded, focus timer
    cancelled), stores today's date and returns true, and a second call on
    the same day returns false; when they are equal it returns false and
    changes nothing.  Over a run of checks with nothing else in between, the
    number of resets is the number of changes of date. *)
Theorem checkDayChange_once_per_day
    (w : World) (d : string) (now : Now) (days : list Now) :
  lastFetchDate (state w) = Some d → truthy d = true →
  Forall (λ n, truthy (today n) = true) days →
  let w' := fst (checkDayChange now w) in
  (d ≠ today now →
     snd (checkDayChange now w) = true ∧
     broadcasts (state w') = ∅ ∧
     currentSlot (state w') = None ∧ status w' = Stopped ∧
     audioPlayer (elements w') = {| src := Some ""; paused := true |} ∧
     audioFocusTimer (state w') = None ∧
     lastFetchDate (state w') = Some (today now) ∧
     snd (checkDayChange now w') = false) ∧
  (d = today now → checkDayChange now w = (w, false)) ∧
  countResets days w = crossings d (today <$> days).
Proof.
  intros Hd Ht Hdays w'. subst w'.
  rewrite (checkDayChange_stored now w d Hd Ht). split_and!.
  - intros Hne. destruct (String.eqb_spec d (today now)) as [|_]; [done|].
    cbn [fst snd]. unfold status.
    rewrite resetForNewDay_state. cbn [broadcasts currentSlot audioFocusTimer lastFetchDate].
    split_and!; try done.
    unfold checkDayChange. rewrite resetForNewDay_state. cbn [lastFetchDate].
    rewrite String.eqb_refl. destruct (truthy (today now)); reflexivity.
  - intros ->. by rewrite String.eqb_refl.
  - by apply countResets_crossings.
Qed.

(** The day changes from 9 to 10 February: one reset; four checks over
    three days: two resets. *)
Lemma checkDayChange_once_per_day_witness :
  let w := with_state (set_lastFetchDate (Some "2026-02-09")) world0 in
  lastFetchDate (state w) = Some "2026-02-09" ∧
  snd (checkDayChange (feb "10") w) = true ∧
  countResets [feb "09"; feb "10"; feb "10"; feb "11"] w = 2%nat.
Proof.
  intros w.
  assert (Hdays : Forall (λ n, truthy (today n) = true)
                    [feb "09"; feb "10"; feb "10"; feb "11"])
    by (repeat constructor).
  destruct (checkDayChange_once_per_day w "2026-02-09" (feb "10") _
              eq_refl eq_refl Hdays) as (Hdiff & _ & Hcount).
  split_and!; [reflexivity | by apply Hdiff | by rewrite Hcount].
Defined.

(** ** Invariants of the reachable worlds *)

Lemma single_instance_init now : single_instance (init now).
Proof.
  unfold single_instance, init. handler_paths; intros h t Hl; by rewrite lookup_empty in Hl.
Qed.

Lemma single_instance_step w e w' :
  single_instance w → step w e w' → single_instance w'.
Proof.
  intros Hinv Hstep. destruct Hstep; unfold single_instance in *.
  all: handler_paths.
  all: intros h' t' Hl; map_hyps; proj.
  all: try (destruct (Hinv _ _ Hl) as [Hp Hf]).
  all: split; intros Hcb; simplify_eq; try done; try (by auto).
  all: try (specialize (Hp Hcb)); try (specialize (Hf Hcb)); simplify_eq; try done.
Qed.

Lemma fresh_init now : fresh (init now).
Proof.
  unfold fresh, init. handler_paths.
  all: split_and!;
    [intros h t Hl; by rewrite lookup_empty in Hl | intros h [=] | intros h [=]].
Qed.

Lemma fresh_step w e w' : fresh w → step w e w' → fresh w'.
Proof.
  intros (Ht & Hp & Hf) Hstep. destruct Hstep; unfold fresh in *.
  all: handler_paths.
  all: split_and!;
    [ intros h' t' Hl; map_hyps; try apply Ht in Hl
    | intros h' Hl; simplify_eq; try apply Hp in Hl
    | intros h' Hl; simplify_eq; try apply Hf in Hl ].
  all: lia.
Qed.

Lemma focus_paused_init now : focus_paused (init now).
Proof. unfold focus_paused, init. handler_paths; by intros [? ?]. Qed.

Lemma focus_paused_step w e w' : focus_paused w → step w e w' → focus_paused w'.
Proof.
  intros Hinv Hstep. destruct Hstep; unfold focus_paused in *.
  all: handler_paths.
  all: try reflexivity; try (by intros [? ?]; simplify_eq);
    try (by intros; apply Hinv; eauto).
Qed.

Lemma slot_loaded_init now : slot_loaded (init now).
Proof. unfold slot_loaded, init. handler_paths; by intros [? ?]. Qed.

Lemma slot_loaded_step w e w' : slot_loaded w → step w e w' → slot_loaded w'.
Proof.
  intros Hinv Hstep. destruct Hstep; unfold slot_loaded in *.
  all: handler_paths.
  all: try reflexivity; try (by intros [? ?]; simplify_eq);
    try (by intros; apply Hinv; eauto).
Qed.

Lemma reachable_invariants w :
  reachable w → single_instance w ∧ fresh w ∧ focus_paused w ∧ slot_loaded w.
Proof.
  induction 1 as [now | w e w' _ (Hs & Hf & Hp & Hl) Hstep].
  - split_and!; [apply single_instance_init | apply fresh_init
                | apply focus_paused_init | apply slot_loaded_init].
  - split_and!; [by eapply single_instance_step | by eapply fresh_step
                | by eapply focus_paused_step | by eapply slot_loaded_step].
Qed.

(** ** A run of the page *)

Lemma reachable_w_fetched : reachable w_fetched.
Proof.
  eapply reachable_step; [apply (reachable_init morning)|].
  by apply (step_fetch _ 0 ThenSchedulePoll).
Qed.

Lemma reachable_w_playing : reachable w_playing.
Proof. eapply reachable_step; [apply reachable_w_fetched | apply step_tile]. Qed.

Lemma reachable_w_paused : reachable w_paused.
Proof. eapply reachable_step; [apply reachable_w_playing | apply step_toggle]. Qed.

Lemma reachable_w_resumed : reachable w_resumed.
Proof. eapply reachable_step; [apply reachable_w_paused | apply step_toggle]. Qed.

(** ** A day boundary crossed without a reset *)

(** C4 (defect): the reset does not fire at every day-boundary crossing.
    [updateBroadcasts] checks the day before its [await] and stamps
    [state.lastFetchDate] after it without a check.  In the run below the
    page is opened on 9 February and fetches the 08:00 broadcast; the poll
    timeout fires at 23:59, and the response arrives on 10 February.  Neither
    the check of the poll nor the minute check that follows resets: the
    store holds the broadcast of the 9th under the date of the 10th, and no
    later check on the 10th resets either.  One boundary is crossed, no
    reset has fired. *)
Theorem checkDayChange_misses_crossing :
  reachable w_fetched ∧
  lastFetchDate (state w_fetched) = Some "2026-02-09" ∧
  step w_fetched (PollTimerFired 1 (at_time 23 59)) w_late_poll ∧
  step w_late_poll (FetchSettled 0 late_response (feb "10")) w_next_day ∧
  step w_next_day (MidnightCheck (feb "10")) w_stale ∧
  crossings "2026-02-09" (today <$> [at_time 23 59; feb "10"; feb "10"]) = 1%nat ∧
  snd (checkDayChange (at_time 23 59) (clearTimeout 1 w_fetched)) = false ∧
  snd (checkDayChange (feb "10") w_next_day) = false ∧
  lastFetchDate (state w_stale) = Some "2026-02-10" ∧
  broadcasts (state w_stale) = broadcasts (state w_fetched) ∧
  broadcasts (state w_stale) !! "08:00" = Some (ekot "08:00" 1770620400000) ∧
  (∀ now, today now = "2026-02-10" → checkDayChange now w_stale = (w_stale, false)).
Proof.
  split_and!.
  - apply reachable_w_fetched.
  - reflexivity.
  - eapply (step_poll w_fetched 1 (at_time 23 59)); [by vm_compute | reflexivity].
  - by apply (step_fetch _ 0 ThenSchedulePoll).
  - apply step_midnight.
  - reflexivity.
  - reflexivity.
  - reflexivity.
  - reflexivity.
  - apply map_eq. intros k. by vm_compute.
  - by vm_compute.
  - intros now Hnow. unfold checkDayChange.
    change (lastFetchDate (state w_stale)) with (Some "2026-02-10").
    rewrite Hnow. reflexivity.
Qed.

Example w_playing_status : status w_playing = Playing.
Proof. vm_compute. reflexivity. Qed.

Example w_paused_status :
  status w_paused = Paused ∧ audioFocusTimer (state w_paused) = Some 2%positive.
Proof. vm_compute. done. Qed.

Example w_resumed_status :
  status w_resumed = Playing ∧ audioFocusTimer (state w_resumed) = None.
Proof. vm_compute. done. Qed.

(** ** Rejected play requests *)




(** ** Playing a slot that has no broadcast *)

(** C6: [playBroadcast(slot)] for a slot with no broadcast in the store, or
    with a broadcast whose [audioUrl] is empty, shows the error message
    "Ingen sändning tillgänglig" and changes nothing else: the state object
    (store, current slot, timers' handles), the audio elements and the
    status are as before the call, and no play request is made. *)
Theorem playBroadcast_no_broadcast (slot : string) (w : World) :
  broadcasts (state w) !! slot = None ∨
  (∃ b, broadcasts (state w) !! slot = Some b ∧ audioUrl b = "") →
  let w' := playBroadcast slot w in
  state w' = state w ∧
  broadcasts (state w') = broadcasts (state w) ∧
  currentSlot (state w') = currentSlot (state w) ∧
  audioPlayer (elements w') = audioPlayer (elements w) ∧
  silencePlayer (elements w') = silencePlayer (elements w) ∧
  status w' = status w ∧
  plays (browser w') = plays (browser w) ∧
  statusMessage (elements w')
  = {| textContent := "Ingen sändning tillgänglig"; error := true; visible := true |}.
Proof.
  intros H w'.
  assert (Hw' : w' = showStatus "Ingen sändning tillgänglig" true w).
  { subst w'. unfold playBroadcast.
    destruct H as [-> | (b & -> & Hurl)]; [done|]. by rewrite Hurl. }
  rewrite Hw'. by split_and!.
Qed.

(** The 12:30 tile of the run above, which has no broadcast yet. *)
Lemma playBroadcast_no_broadcast_witness :
  broadcasts (state w_fetched) !! "12:30" = None ∧
  state (playBroadcast "12:30" w_fetched) = state w_fetched.
Proof.
  assert (H : broadcasts (state w_fetched) !! "12:30" = None) by (by vm_compute).
  split; [exact H|].
  exact (proj1 (playBroadcast_no_broadcast "12:30" w_fetched (or_introl H))).
Defined.

(** ** The audio-focus keep-alive timer *)

Lemma status_Playing w :
  status w = Playing →
  is_Some (currentSlot (state w)) ∧ paused (audioPlayer (elements w)) = false.
Proof.
  unfold status. destruct (currentSlot _), (paused _); by eauto.
Qed.

Lemma status_Paused w :
  status w = Paused →
  is_Some (currentSlot (state w)) ∧ paused (audioPlayer (elements w)) = true.
Proof.
  unfold status. destruct (currentSlot _), (paused _); by eauto.
Qed.

(** C7: in a reachable world, [togglePlayPause] while Playing pauses the
    audio and arms the focus timer with [AUDIO_FOCUS_TIMEOUT], 15 minutes;
    [togglePlayPause] while Paused resumes and cancels it, after which no
    focus timeout is pending; and when the focus timeout fires the callback
    stops the playback: no current slot, the audio element unloaded, the
    silent keep-alive player unloaded (audio focus released), the handle
    cleared. *)
Theorem audio_focus_keepalive (w : World) :
  reachable w →
  (status w = Playing →
     let w1 := togglePlayPause w in
     status w1 = Paused ∧
     CONFIG.AUDIO_FOCUS_TIMEOUT = 15 * 60 * 1000 ∧
     ∃ h, audioFocusTimer (state w1) = Some h ∧
          timers (browser w1) !! h
          = Some {| callback := FocusRelease; delay := CONFIG.AUDIO_FOCUS_TIMEOUT |}) ∧
  (status w = Paused →
     let w2 := togglePlayPause w in
     status w2 = Playing ∧
     audioFocusTimer (state w2) = None ∧
     ∀ h t, timers (browser w2) !! h = Some t → callback t ≠ FocusRelease) ∧
  (∀ h w3, step w (FocusTimerFired h) w3 →
     status w3 = Stopped ∧
     currentSlot (state w3) = None ∧
     audioPlayer (elements w3) = {| src := Some ""; paused := true |} ∧
     silencePlayer (elements w3) = {| src := Some ""; paused := true |} ∧
     audioFocusTimer (state w3) = None ∧
     ∀ h' t, timers (browser w3) !! h' = Some t → callback t ≠ FocusRelease).
Proof.
  intros (Hsingle & _ & _ & Hloaded)%reachable_invariants. split_and!.
  - intros [Hslot Hpaused]%status_Playing w1.
    specialize (Hloaded Hslot). destruct Hslot as [s Hs].
    subst w1. unfold togglePlayPause, status.
    rewrite (loaded_src_truthy _ Hloaded), Hpaused. cbn [negb].
    handler_paths; (split_and!; [done | done |]);
      eexists; (split; [done | by rewrite lookup_insert_eq]).
  - intros [Hslot Hpaused]%status_Paused w2.
    specialize (Hloaded Hslot). destruct Hslot as [s Hs].
    subst w2. unfold togglePlayPause, status.
    rewrite (loaded_src_truthy _ Hloaded), Hpaused. cbn [negb].
    handler_paths; (split_and!; [done | done |]).
    + intros h t Hl Hcb. map_hyps. destruct (Hsingle _ _ Hl) as [_ Hf].
      specialize (Hf Hcb). congruence.
    + intros h t Hl Hcb. destruct (Hsingle _ _ Hl) as [_ Hf].
      specialize (Hf Hcb). congruence.
  - intros h w3 Hstep. inversion Hstep as [| | | | | | | | | |w0 h0 t0 Ht0 Hcb0| | |]; subst.
    unfold status. handler_paths; (split_and!; try done).
    all: intros h' t Hl Hcb; map_hyps; destruct (Hsingle _ _ Hl) as [_ Hf];
      specialize (Hf Hcb); congruence.
Qed.

(** The pause of the run above. *)
Lemma audio_focus_keepalive_witness :
  reachable w_playing ∧ status w_playing = Playing ∧
  status (togglePlayPause w_playing) = Paused.
Proof.
  split_and!; [apply reachable_w_playing | apply w_playing_status |].
  exact (proj1 (proj1 (audio_focus_keepalive w_playing reachable_w_playing)
                  w_playing_status)).
Defined.

Lemma reachable_w_repaused : reachable w_repaused.
Proof.
  eapply reachable_step; [|apply step_toggle].
  eapply reachable_step; [|apply step_toggle].
  eapply reachable_step; [apply reachable_w_playing|].
  by apply step_ended.
Qed.

(** C8, as stated, fails: from the Paused world [w_paused], whose focus
    timer is armed, the ['ended'] event leads to a reachable Stopped world in
    which the focus timer handle is still set and its timeout still
    pending: the ['ended'] listener does not cancel it.  And after a
    broadcast has played to its end, a replay and a pause arm the timer
    while there is no current slot. *)
Lemma focus_timer_survives_ended :
  (reachable w_paused ∧ status w_paused = Paused ∧
   step w_paused AudioEnded w_ended ∧
   reachable w_ended ∧ status w_ended = Stopped ∧
   audioFocusTimer (state w_ended) = Some 2%positive ∧
   timers (browser w_ended) !! 2%positive
   = Some {| callback := FocusRelease; delay := CONFIG.AUDIO_FOCUS_TIMEOUT |}) ∧
  (reachable w_repaused ∧ status w_repaused = Stopped ∧
   audioFocusTimer (state w_repaused) = Some 2%positive).
Proof.
  assert (Hstep : step w_paused AudioEnded w_ended) by (by apply step_ended).
  split.
  - split_and!; [apply reachable_w_paused | by vm_compute | done | |
                 by vm_compute | by vm_compute | by vm_compute].
    eapply reachable_step; [apply reachable_w_paused | done].
  - split_and!; [apply reachable_w_repaused | by vm_compute | by vm_compute].
Qed.

(** C8 (amended): in every reachable world the focus timer handle is set
    only while the audio element is paused, never while Playing; a step sets
    a new handle only when it is a pause (the play/pause button or the
    media-session pause action), with the audio element paused; and every
    step that leaves Paused, other than the ['ended'] event, leaves the
    handle unset (play, resume, stop, error, timer expiry, day reset). *)
Theorem focus_timer_only_while_paused (w : World) :
  reachable w →
  (is_Some (audioFocusTimer (state w)) →
     paused (audioPlayer (elements w)) = true ∧ status w ≠ Playing) ∧
  (∀ e w', step w e w' →
     (∀ h, audioFocusTimer (state w') = Some h →
           audioFocusTimer (state w) ≠ Some h →
           (e = PlayPauseClick ∨ e = MediaSessionPause) ∧
           paused (audioPlayer (elements w')) = true) ∧
     (status w = Paused → status w' ≠ Paused → e ≠ AudioEnded →
      audioFocusTimer (state w') = None)).
Proof.
  intros (_ & _ & Hpaused & Hloaded)%reachable_invariants. split.
  - intros Hset. specialize (Hpaused Hset). split; [done|].
    unfold status. rewrite Hpaused. by destruct (currentSlot _).
  - intros e w' Hstep. split.
    + intros h Hnew Hold. clear Hpaused Hloaded.
      destruct Hstep; revert Hnew Hold; handler_paths; intros; simplify_eq;
        try done; try (split; [by auto | reflexivity]).
    + intros [Hslot Hp]%status_Paused Hleft Hnot.
      specialize (Hloaded Hslot). destruct Hslot as [s Hs]. clear Hpaused.
      destruct Hstep; try done; revert Hleft; unfold status; handler_paths;
        intros; simplify_eq; try done; try congruence.
      all: proj; congruence.
Qed.

(** The paused world of the run above. *)
Lemma focus_timer_only_while_paused_witness :
  reachable w_paused ∧ paused (audioPlayer (elements w_paused)) = true.
Proof.
  split; [apply reachable_w_paused|].
  refine (proj1 (proj1 (focus_timer_only_while_paused w_paused reachable_w_paused) _)).
  exists 2%positive. vm_compute. reflexivity.
Defined.

(** ** Single-instance timers *)

(** C9, as stated, fails for the poll timer: when its timeout fires, the
    callback starts [updateBroadcasts()] and [state.pollTimer] still holds
    the handle of the timeout that fired; it is overwritten only when
    [schedulePoll()] runs again after the fetch. *)
Lemma poll_timer_keeps_handle :
  reachable w_fetched ∧
  pollTimer (state w_fetched) = Some 1%positive ∧
  step w_fetched (PollTimerFired 1 (at_time 8 31)) w_polled ∧
  timers (browser w_polled) !! 1%positive = None ∧
  pollTimer (state w_polled) = Some 1%positive.
Proof.
  split_and!; [apply reachable_w_fetched | by vm_compute | |
               by vm_compute | by vm_compute].
  by eapply step_poll; vm_compute.
Qed.

(** C9 (amended): in every reachable world at most one poll timeout and at
    most one focus timeout are pending; [schedulePoll] and
    [startAudioFocusKeepAlive] cancel the timeout of the handle they hold
    before they arm the new one; the focus timer clears its own handle when
    it fires, and the poll timer leaves the handle of the timeout that fired
    in [state.pollTimer]. *)
Theorem timers_single_instance (w : World) :
  reachable w →
  (∀ h1 h2 t1 t2,
     timers (browser w) !! h1 = Some t1 → timers (browser w) !! h2 = Some t2 →
     callback t1 = callback t2 → callback t1 ≠ StatusHide → h1 = h2) ∧
  (∀ now,
     let w' := schedulePoll now w in
     (∀ h, pollTimer (state w) = Some h → timers (browser w') !! h = None) ∧
     ∃ h', pollTimer (state w') = Some h' ∧
           timers (browser w') !! h'
           = Some {| callback := PollTick; delay := calculatePollInterval now w |}) ∧
  (let w' := startAudioFocusKeepAlive w in
   (∀ h, audioFocusTimer (state w) = Some h → timers (browser w') !! h = None) ∧
   ∃ h', audioFocusTimer (state w') = Some h' ∧
         timers (browser w') !! h'
         = Some {| callback := FocusRelease; delay := CONFIG.AUDIO_FOCUS_TIMEOUT |}) ∧
  (∀ h w', step w (FocusTimerFired h) w' →
     audioFocusTimer (state w') = None ∧ timers (browser w') !! h = None) ∧
  (∀ h now w', step w (PollTimerFired h now) w' →
     pollTimer (state w') = Some h ∧ timers (browser w') !! h = None).
Proof.
  intros (Hsingle & (Hfresh & Hfp & Hff) & _ & _)%reachable_invariants. split_and!.
  - intros h1 h2 t1 t2 H1 H2 Heq Hne.
    destruct (Hsingle _ _ H1) as [Hp1 Hf1], (Hsingle _ _ H2) as [Hp2 Hf2].
    destruct (callback t1) eqn:E1; try done.
    + specialize (Hp1 eq_refl). specialize (Hp2 (eq_sym Heq)). congruence.
    + specialize (Hf1 eq_refl). specialize (Hf2 (eq_sym Heq)). congruence.
  - intros now w'. subst w'. unfold schedulePoll, calculatePollInterval.
    destruct (pollTimer (state w)) as [h0|] eqn:Hp; proj.
    + split.
      * intros h [= <-]. specialize (Hfp _ eq_refl).
        rewrite lookup_insert_ne by lia. by rewrite lookup_delete_eq.
      * eexists. split; [done|]. by rewrite lookup_insert_eq.
    + split; [done|]. eexists. split; [done|]. by rewrite lookup_insert_eq.
  - intros w'. subst w'. unfold startAudioFocusKeepAlive, stopAudioFocusKeepAlive.
    destruct (audioFocusTimer (state w)) as [h0|] eqn:Hf; proj.
    + split.
      * intros h [= <-]. specialize (Hff _ eq_refl).
        rewrite lookup_insert_ne by lia. by rewrite lookup_delete_eq.
      * eexists. split; [done|]. by rewrite lookup_insert_eq.
    + split; [done|]. eexists. split; [done|]. by rewrite lookup_insert_eq.
  - intros h w' Hstep.
    inversion Hstep as [| | | | | | | | | |w0 h0 t0 Ht0 Hcb0| | |]; subst.
    destruct (Hsingle _ _ Ht0) as [_ Hf]. specialize (Hf Hcb0).
    handler_paths. split; [done|]. by rewrite !lookup_delete_eq.
  - intros h now w' Hstep.
    inversion Hstep as [| | | | | | | | |w0 h0 now0 t0 Ht0 Hcb0| | | |]; subst.
    destruct (Hsingle _ _ Ht0) as [Hp _]. specialize (Hp Hcb0).
    handler_paths; (split; [done|]); map_hyps;
      rewrite ?lookup_delete_eq; try done.
    apply lookup_delete_None. right. apply lookup_delete_eq.
Qed.

(** Arming the focus timer again in the paused world of the run above
    cancels timeout 2. *)
Lemma timers_single_instance_witness :
  reachable w_paused ∧
  timers (browser (startAudioFocusKeepAlive w_paused)) !! 2%positive = None.
Proof.
  split; [apply reachable_w_paused|].
  refine (proj1 (proj1 (proj2 (proj2
            (timers_single_instance w_paused reachable_w_paused)))) 2%positive _).
  vm_compute. reflexivity.
Defined.

(** * Further properties *)

(** * Further properties *)

(** ** extractSlotFromTitle and parseRss *)

Lemma append_nil_l p : "" +:+ p = p.
Proof. reflexivity. Qed.

Lemma append_cons a t p : String a t +:+ p = String a (t +:+ p).
Proof. reflexivity. Qed.

Lemma append_nil_r p : p +:+ "" = p.
Proof. induction p as [|a p IH]; [done|]. by rewrite append_cons, IH. Qed.

Lemma append_assoc p q r : (p +:+ q) +:+ r = p +:+ q +:+ r.
Proof. induction p as [|a p IH]; [done|]. by rewrite !append_cons, IH. Qed.

Lemma prefix_app t s : String.prefix t s = true ↔ ∃ post, s = t +:+ post.
Proof.
  revert t. induction s as [|b s IH]; intros [|a t]; simpl.
  - split; [intros _; by exists "" | done].
  - split; [done | intros [post Hp]; by rewrite append_cons in Hp].
  - split; [intros _; by exists (String b s) | done].
  - destruct (Ascii.ascii_dec a b) as [->|Hne].
    + rewrite IH. split; intros [post Hp]; exists post.
      * by rewrite append_cons, Hp.
      * rewrite append_cons in Hp. by simplify_eq.
    + split; [done | intros [post Hp]].
      rewrite append_cons in Hp. by simplify_eq.
Qed.

Lemma includes_nil t : includes "" t = String.prefix t "" || false.
Proof. reflexivity. Qed.

Lemma includes_cons a s t :
  includes (String a s) t = String.prefix t (String a s) || includes s t.
Proof. reflexivity. Qed.

Lemma includes_spec s t : includes s t = true ↔ occurs_in t s.
Proof.
  unfold occurs_in. induction s as [|a s IH].
  - rewrite includes_nil, orb_false_r, prefix_app. split.
    + intros [post Hp]. by exists "", post.
    + intros ([|b pre] & post & Hp).
      * rewrite append_nil_l in Hp. by exists post.
      * by rewrite append_cons in Hp.
  - rewrite includes_cons, orb_true_iff, prefix_app, IH. split.
    + intros [[post Hp]|(pre & post & Hp)].
      * by exists "", post.
      * exists (String a pre), post. by rewrite append_cons, Hp.
    + intros ([|b pre] & post & Hp).
      * left. rewrite append_nil_l in Hp. by exists post.
      * right. rewrite append_cons in Hp. simplify_eq. by exists pre, post.
Qed.

Lemma includes_false s t : includes s t = false ↔ ¬ occurs_in t s.
Proof. rewrite <- includes_spec. by destruct (includes s t). Qed.

Lemma extractSlot_loop_Some slots title l :
  extractSlot_loop slots title = Some l ↔
  ∃ i s, slots !! i = Some s ∧ time s = l ∧ occurs_in l title ∧
         ∀ j s', (j < i)%nat → slots !! j = Some s' → ¬ occurs_in (time s') title.
Proof.
  induction slots as [|s rest IH]; simpl.
  - split; [done | by intros (i & s & Hi & _)].
  - destruct (includes title (time s)) eqn:Hin.
    + apply includes_spec in Hin as Hocc. split.
      * intros [= <-]. exists 0%nat, s. split_and!; try done. intros j s' Hj. lia.
      * intros ([|i] & s0 & Hi & <- & Hocc0 & Hbefore); simplify_eq/=; [done|].
        destruct (Hbefore 0%nat s); [lia | done | done].
    + apply includes_false in Hin. rewrite IH. split.
      * intros (i & s0 & Hi & Hl & Hocc & Hbefore).
        exists (S i), s0. split_and!; try done.
        intros [|j] s' Hj Hs'; simplify_eq/=; [done|]. apply (Hbefore j); [lia | done].
      * intros ([|i] & s0 & Hi & Hl & Hocc & Hbefore); simplify_eq/=; [done|].
        exists i, s0. split_and!; try done.
        intros j s' Hj Hs'. apply (Hbefore (S j)); [lia | done].
Qed.

Lemma extractSlot_loop_None slots title :
  extractSlot_loop slots title = None ↔
  ∀ s, s ∈ slots → ¬ occurs_in (time s) title.
Proof.
  induction slots as [|s rest IH]; simpl.
  - split; [|done]. intros _ s Hs. by apply elem_of_nil in Hs.
  - destruct (includes title (time s)) eqn:Hin.
    + apply includes_spec in Hin. split; [done|].
      intros Hall. destruct (Hall s); [by left | done].
    + apply includes_false in Hin. rewrite IH. split.
      * intros Hall s' [->|Hs']%elem_of_cons; [done | by apply Hall].
      * intros Hall s' Hs'. apply Hall. by right.
Qed.

Lemma extractSlotFromTitle_label title l :
  extractSlotFromTitle title = Some l → l ∈ getSlotTimes ∧ truthy l = true.
Proof.
  intros (i & s & Hi & <- & _)%extractSlot_loop_Some.
  apply list_elem_of_lookup_2 in Hi. unfold getSlotTimes, CONFIG.SLOTS in *.
  repeat (apply elem_of_cons in Hi as [->|Hi]);
    [split; [set_solver | done]..|by apply elem_of_nil in Hi].
Qed.

Example extractSlotFromTitle_examples :
  extractSlotFromTitle "Ekot 08:00" = Some "08:00" ∧
  extractSlotFromTitle "Ekot 17:45 Ekonyheter" = Some "17:45" ∧
  extractSlotFromTitle "Ekot 17:45 (repris av 12:30)" = Some "12:30" ∧
  extractSlotFromTitle "Ekot 8:00" = None ∧
  extractSlotFromTitle "" = None.
Proof. vm_compute. done. Qed.

(** X1: [extractSlotFromTitle] returns a configured label that occurs in the
    title and before which, in the configured order, no label occurs in the
    title; it returns null exactly when no configured label occurs in the
    title.  When a title holds several labels the order of the
    configuration decides, not the order in the title. *)
Theorem extractSlotFromTitle_first_label (title : string) :
  (∀ l, extractSlotFromTitle title = Some l ↔
        ∃ i s, CONFIG.SLOTS !! i = Some s ∧ time s = l ∧ occurs_in l title ∧
               ∀ j s', (j < i)%nat → CONFIG.SLOTS !! j = Some s' →
                       ¬ occurs_in (time s') title) ∧
  (extractSlotFromTitle title = None ↔
   ∀ l, l ∈ getSlotTimes → ¬ occurs_in l title) ∧
  (∀ pre post, extractSlotFromTitle (pre +:+ "12:30" +:+ post +:+ "08:00")
               = Some "08:00").
Proof.
  unfold extractSlotFromTitle. split_and!.
  - intros l. apply extractSlot_loop_Some.
  - rewrite extractSlot_loop_None. unfold getSlotTimes. split.
    + intros Hall l (s & -> & Hs)%list_elem_of_fmap. by apply Hall.
    + intros Hall s Hs. apply Hall. apply list_elem_of_fmap. by exists s.
  - intros pre post. apply extractSlot_loop_Some.
    exists 0%nat, {| time := "08:00"; pollStart := {| hour := 8; minute := 20 |} |}.
    split_and!; try done.
    + exists (pre +:+ "12:30" +:+ post), "".
      by rewrite append_nil_r, !append_assoc.
    + intros j s' Hj. lia.
Qed.

Lemma parseRss_item_stored D todayStr bs item slot :
  stored_under D todayStr item slot →
  parseRss_item D todayStr bs item = <[slot := item_broadcast D item slot]> bs.
Proof.
  intros [Hdate Hslot]. unfold parseRss_item. rewrite Hdate, String.eqb_refl, Hslot.
  by destruct (extractSlotFromTitle_label _ _ Hslot) as [_ ->].
Qed.

Lemma parseRss_item_skipped D todayStr bs item :
  (∀ slot, ¬ stored_under D todayStr item slot) →
  parseRss_item D todayStr bs item = bs.
Proof.
  intros Hnot. unfold parseRss_item.
  destruct (String.eqb_spec (parseRssDateToStockholm D (item_pubDate item)) todayStr)
    as [Hdate|Hdate]; [|done]. cbn [negb].
  destruct (extractSlotFromTitle (item_title item)) as [slot|] eqn:Hslot; [|done].
  by destruct (Hnot slot).
Qed.

Lemma stored_under_dec D todayStr item :
  (∃ slot, stored_under D todayStr item slot) ∨
  (∀ slot, ¬ stored_under D todayStr item slot).
Proof.
  unfold stored_under.
  destruct (decide (parseRssDateToStockholm D (item_pubDate item) = todayStr));
    [|right; by intros slot [? _]].
  destruct (extractSlotFromTitle (item_title item)) as [slot|];
    [left; by exists slot | right; by intros slot [_ ?]].
Qed.

Lemma parseRss_snoc D todayStr items item :
  parseRss D todayStr (items ++ [item])
  = parseRss_item D todayStr (parseRss D todayStr items) item.
Proof. unfold parseRss. by rewrite fold_left_app. Qed.

(** An entry of the parsed feed comes from an item stored under its key. *)
Lemma parseRss_lookup_Some D todayStr items k b :
  parseRss D todayStr items !! k = Some b →
  ∃ item, item ∈ items ∧ stored_under D todayStr item k ∧
          b = item_broadcast D item k.
Proof.
  induction items as [|item items IH] using rev_ind.
  - unfold parseRss. simpl. by rewrite lookup_empty.
  - rewrite parseRss_snoc.
    destruct (stored_under_dec D todayStr item) as [[slot Hst]|Hnot].
    + rewrite (parseRss_item_stored _ _ _ _ _ Hst).
      intros [[<- <-]|[Hne Hb]]%lookup_insert_Some.
      * exists item. split_and!; [| done | done].
        apply elem_of_app. right. by left.
      * destruct (IH Hb) as (it & Hin & ? & ?). exists it.
        split_and!; [apply elem_of_app; by left | done..].
    + rewrite (parseRss_item_skipped _ _ _ _ Hnot). intros Hb.
      destruct (IH Hb) as (it & Hin & ? & ?). exists it.
      split_and!; [apply elem_of_app; by left | done..].
Qed.

(** Items after the last one stored under [k] do not touch the entry. *)
Lemma parseRss_later D todayStr items later k :
  (∀ item, item ∈ later → ¬ stored_under D todayStr item k) →
  parseRss D todayStr (items ++ later) !! k = parseRss D todayStr items !! k.
Proof.
  induction later as [|item later IH] using rev_ind; intros Hnot.
  - by rewrite app_nil_r.
  - rewrite app_assoc, parseRss_snoc.
    destruct (stored_under_dec D todayStr item) as [[slot Hst]|Hskip].
    + rewrite (parseRss_item_stored _ _ _ _ _ Hst).
      rewrite lookup_insert_ne.
      * apply IH. intros it Hin. apply Hnot. apply elem_of_app. by left.
      * intros ->. apply (Hnot item); [|done]. apply elem_of_app. right. by left.
    + rewrite (parseRss_item_skipped _ _ _ _ Hskip).
      apply IH. intros it Hin. apply Hnot. apply elem_of_app. by left.
Qed.

(** X2: every entry of the object [parseRss] returns is keyed by a
    configured slot label, carries that label in its [slot] field, and is
    made of an item of the feed that is dated today and whose title yields
    the label; in particular a feed with no item of today gives the empty
    object. *)
Theorem parseRss_entries (D : DateOps) (todayStr : string) (items : list FeedItem) :
  (∀ k b, parseRss D todayStr items !! k = Some b →
     k ∈ getSlotTimes ∧ slot b = k ∧
     ∃ item, item ∈ items ∧
             parseRssDateToStockholm D (item_pubDate item) = todayStr ∧
             extractSlotFromTitle (item_title item) = Some k ∧
             b = item_broadcast D item k) ∧
  ((∀ item, item ∈ items →
      parseRssDateToStockholm D (item_pubDate item) ≠ todayStr) →
   parseRss D todayStr items = ∅).
Proof.
  split.
  - intros k b (item & Hin & [Hdate Hslot] & ->)%parseRss_lookup_Some.
    split_and!; [by eapply extractSlotFromTitle_label | done | by exists item].
  - intros Hold. apply map_eq. intros k. rewrite lookup_empty.
    destruct (parseRss D todayStr items !! k) as [b|] eqn:Hb; [|done].
    apply parseRss_lookup_Some in Hb as (item & Hin & [Hdate _] & _).
    by destruct (Hold item Hin).
Qed.

(** X3: when several items of today yield the same slot, the one that comes
    last in the feed is stored: an item stored under a label, followed only
    by items not stored under that label, is the entry of the label. *)
Theorem parseRss_last_item_wins (D : DateOps) (todayStr : string)
    (before later : list FeedItem) (item : FeedItem) (k : string) :
  parseRssDateToStockholm D (item_pubDate item) = todayStr →
  extractSlotFromTitle (item_title item) = Some k →
  (∀ it, it ∈ later → ¬ stored_under D todayStr it k) →
  parseRss D todayStr (before ++ item :: later) !! k
  = Some (item_broadcast D item k).
Proof.
  intros Hdate Hslot Hlater.
  change (before ++ item :: later) with (before ++ [item] ++ later).
  rewrite app_assoc, (parseRss_later _ _ _ _ _ Hlater), parseRss_snoc.
  rewrite (parseRss_item_stored D todayStr _ item k); [|done].
  by rewrite lookup_insert_eq.
Qed.

(** Two items of today for 08:00: the second one is stored. *)
Lemma parseRss_last_item_wins_witness :
  let first := {| item_title := "Ekot 08:00"; item_pubDate := "2026-02-09 08:05";
                  item_url := "https://sverigesradio.se/a.mp3" |} in
  let second := {| item_title := "Ekot 08:00 (uppdaterad)";
                   item_pubDate := "2026-02-09 08:20";
                   item_url := "https://sverigesradio.se/b.mp3" |} in
  parseRss day_prefix "2026-02-09" [first; second] !! "08:00"
  = Some (item_broadcast day_prefix second "08:00").
Proof.
  intros first second.
  apply (parseRss_last_item_wins day_prefix "2026-02-09" [first] [] second "08:00").
  - reflexivity.
  - vm_compute. reflexivity.
  - intros it Hin. by apply elem_of_nil in Hin.
Defined.

(** ** Runs fed by parseRss, with a clock that gives dates *)

Lemma reachable_when_reachable ok w : reachable_when ok w → reachable w.
Proof.
  induction 1 as [now _ | w e w' _ IH _ _ Hstep];
    [apply reachable_init | by eapply reachable_step].
Qed.

Lemma NoDup_getSlotTimes : NoDup getSlotTimes.
Proof. refine (bool_decide_unpack _ _). vm_compute. exact I. Qed.

Lemma keys_configured_step w e w' :
  keys_configured w → from_feed e → step w e w' → keys_configured w'.
Proof.
  intros Hinv Hfeed Hstep. destruct Hstep; unfold keys_configured in *.
  all: handler_paths.
  all: try done; try (by intros k Hk; rewrite lookup_empty in Hk; destruct Hk).
  all: destruct Hfeed as (D & feed & ->).
  all: intros k [b Hb]; rewrite Object_assign_lookup in Hb.
  all: destruct (parseRss D (today now) feed !! k) as [b'|] eqn:Hk; [|by eauto].
  all: apply parseRss_lookup_Some in Hk as (item & _ & [_ Hslot] & _).
  all: by eapply extractSlotFromTitle_label.
Qed.

(** X4: in every run whose fetches are parsed by [parseRss], every key of
    [state.broadcasts] is a configured slot label, so the store never holds
    more than four broadcasts. *)
Theorem store_keys_configured (w : World) :
  reachable_when from_feed w →
  (∀ k, is_Some (broadcasts (state w) !! k) → k ∈ getSlotTimes) ∧
  (size (broadcasts (state w)) ≤ 4)%nat.
Proof.
  intros Hw.
  assert (Hkeys : keys_configured w).
  { induction Hw as [now _ | w e w' _ IH Hok _ Hstep].
    - unfold keys_configured, init. handler_paths;
        intros k Hk; rewrite lookup_empty in Hk; by destruct Hk.
    - by eapply keys_configured_step. }
  split; [done|].
  rewrite <- size_dom.
  transitivity (size (list_to_set (C := gset string) getSlotTimes)).
  - apply subseteq_size. intros k Hk%elem_of_dom.
    apply elem_of_list_to_set. by apply Hkeys.
  - by rewrite size_list_to_set by apply NoDup_getSlotTimes.
Qed.

Lemma date_stored_step w e w' :
  date_stored w → (∀ now, event_now e = Some now → dated now) →
  step w e w' → date_stored w'.
Proof.
  intros (d & Hd & Ht) Hnow Hstep. destruct Hstep; unfold date_stored, dated in *.
  all: try (specialize (Hnow _ eq_refl)).
  all: handler_paths; eauto.
Qed.

(** X5: in every run whose clock gives dates, a date is stored in
    [state.lastFetchDate] from [init()] on, so the guard of [checkDayChange]
    never holds a reset back: it resets exactly when the stored date is not
    today's. *)
Theorem checkDayChange_guard_never_blocks (w : World) :
  reachable_when (λ _, True) w →
  (∃ d, lastFetchDate (state w) = Some d ∧ d ≠ "") ∧
  (∀ now, snd (checkDayChange now w) = true ↔
          lastFetchDate (state w) ≠ Some (today now)).
Proof.
  intros Hw.
  assert (Hdate : date_stored w).
  { induction Hw as [now Hnow | w e w' _ IH _ Hnow Hstep].
    - unfold date_stored, dated, init in *. handler_paths; eauto.
    - by eapply date_stored_step. }
  destruct Hdate as (d & Hd & Ht). split.
  - exists d. split; [done|]. by apply truthy_spec.
  - intros now. rewrite (checkDayChange_stored now w d Hd Ht), Hd.
    destruct (String.eqb_spec d (today now)) as [->|Hne]; simpl.
    + split; [done | by intros []].
    + split; [intros _ [= ?]; done | done].
Qed.

(** ** More invariants of the reachable worlds *)

Lemma slot_present_step w e w' :
  slot_present w → step w e w' → slot_present w'.
Proof.
  intros Hinv Hstep. destruct Hstep; unfold slot_present in *.
  all: handler_paths.
  all: try done; try (by intros s0 [= <-]; eauto).
  all: intros s0 Hs0; rewrite Object_assign_lookup.
  all: destruct (Hinv _ Hs0) as [b0 ->]; by case_match.
Qed.

Lemma currentSlot_in_store_helper w : reachable w → slot_present w.
Proof.
  induction 1 as [now | w e w' _ IH Hstep].
  - unfold slot_present, init. handler_paths; done.
  - by eapply slot_present_step.
Qed.

(** X6: in every reachable world the current slot, when there is one, has a
    broadcast in the store. *)
Theorem currentSlot_in_store (w : World) :
  reachable w →
  ∀ s, currentSlot (state w) = Some s → is_Some (broadcasts (state w) !! s).
Proof.
  induction 1 as [now | w e w' _ IH Hstep].
  - unfold init. handler_paths; done.
  - by apply (slot_present_step w e w').
Qed.

Lemma lookup_timeout_ne (m : gmap positive Timeout) h h' t :
  m !! h = Some t → m !! h' = None → h ≠ h'.
Proof. intros Hh Hh' ->. congruence. Qed.

Lemma fresh_unused w h :
  fresh w → (nextHandle (browser w) ≤ h)%positive → timers (browser w) !! h = None.
Proof.
  intros (Ht & _) Hle. destruct (timers (browser w) !! h) as [t|] eqn:E; [|done].
  apply Ht in E. lia.
Qed.

Lemma focus_pending_step w e w' :
  fresh w → focus_pending w → poll_handle w → step w e w' → focus_pending w'.
Proof.
  intros (Hft & Hfp & Hff) [Hfoc Hsil] Hpoll Hstep.
  destruct Hstep; unfold focus_pending, poll_handle in *.
  all: handler_paths.
  all: split; [intros h' Hh'; simplify_eq | try done; try (by intros; eauto)].
  all: try (by rewrite lookup_insert_eq).
  all: try (by apply Hfoc).
  all: pose proof (Hff _ Hh') as Hlt; pose proof (Hfoc _ Hh') as Hent.
  all: repeat first
         [ rewrite lookup_insert_ne by lia
         | rewrite lookup_delete_ne
             by (intros ?; simplify_eq;
                 try (by pose proof (Hpoll _ _ eq_refl Hent));
                 try (by match goal with
                         | Hp : pollTimer _ = Some _ |- _ =>
                             pose proof (Hpoll _ _ Hp Hent)
                         end); done) ].
  all: try done.
Qed.

Lemma poll_handle_step w e w' :
  fresh w → focus_pending w → poll_handle w → step w e w' → poll_handle w'.
Proof.
  intros (Hft & Hfp & Hff) [Hfoc Hsil] Hpoll Hstep.
  destruct Hstep; unfold focus_pending, poll_handle in *.
  all: handler_paths.
  all: intros h' t' Hh' Ht'; simplify_eq; map_hyps; simplify_eq; try done.
  all: try (by eapply Hpoll).
  all: try (by apply Hfp in Hh'; lia).
  all: rewrite lookup_insert_eq in Ht'; by simplify_eq.
Qed.

Lemma reachable_handles w : reachable w → focus_pending w ∧ poll_handle w.
Proof.
  induction 1 as [now | w e w' Hw [IHf IHp] Hstep].
  - unfold focus_pending, poll_handle, init. handler_paths; by split_and!.
  - apply reachable_invariants in Hw as (_ & Hfresh & _).
    split; [by eapply focus_pending_step | by eapply poll_handle_step].
Qed.

(** X7: in every reachable world, a set [state.audioFocusTimer] names a
    pending timeout that will release the audio focus after
    [AUDIO_FOCUS_TIMEOUT], and the silent player plays only while that
    handle is set: the focus is never kept without a pending release. *)
Theorem focus_release_always_pending (w : World) :
  reachable w →
  (∀ h, audioFocusTimer (state w) = Some h →
        timers (browser w) !! h
        = Some {| callback := FocusRelease; delay := CONFIG.AUDIO_FOCUS_TIMEOUT |}) ∧
  (paused (silencePlayer (elements w)) = false →
   ∃ h, audioFocusTimer (state w) = Some h ∧
        timers (browser w) !! h
        = Some {| callback := FocusRelease; delay := CONFIG.AUDIO_FOCUS_TIMEOUT |}).
Proof.
  intros [[Hfoc Hsil] _]%reachable_handles. split; [done|].
  intros [h Hh]%Hsil. eauto.
Qed.

Lemma filter_delete_length {A} (P : A → Prop) `{!∀ x, Decision (P x)}
    (l : list A) i x :
  l !! i = Some x →
  length (filter P l)
  = (length (filter P (delete i l)) + (if decide (P x) then 1 else 0))%nat.
Proof.
  revert i. induction l as [|y l IH]; intros [|i] Hi; try done.
  - injection Hi as ->. change (delete 0%nat (x :: l)) with l.
    rewrite filter_cons. case_decide; simpl; lia.
  - change (delete (S i) (y :: l)) with (y :: delete i l).
    rewrite !filter_cons. specialize (IH i Hi).
    destruct (decide (P y)); simpl; lia.
Qed.

Lemma polls_push k (l : list Continuation) :
  length (filter (λ k, k = ThenSchedulePoll) (l ++ [k]))
  = (length (filter (λ k, k = ThenSchedulePoll) l)
     + (if decide (k = ThenSchedulePoll) then 1 else 0))%nat.
Proof.
  rewrite filter_app, length_app, filter_cons, filter_nil.
  by destruct (decide (k = ThenSchedulePoll)).
Qed.

Lemma poll_phase_step w e w' :
  fresh w → focus_pending w → poll_handle w → single_instance w →
  poll_phase w → step w e w' → poll_phase w'.
Proof.
  intros (Hft & Hfp & Hff) [Hfoc Hsil] Hpoll Hsingle Hphase Hstep.
  destruct Hstep; unfold poll_phase, polls_in_flight in *.
  all: handler_paths.
  all: unfold poll_armed in *; proj.
  all: rewrite ?polls_push.
  all: try match goal with
       | H : fetches _ !! _ = Some _ |- _ =>
           rewrite (filter_delete_length (λ k, k = ThenSchedulePoll) _ _ _ H) in Hphase
       end.
  all: repeat case_decide; try done.
  all: try match goal with
       | H : timers _ !! ?h = Some ?t, Hc : callback ?t = PollTick |- _ =>
           let Hp := fresh in
           destruct (Hsingle _ _ H) as [Hp _]; specialize (Hp Hc);
           rewrite Hp in *
       end.
  all: try (destruct (pollTimer (state w)) as [q|] eqn:Hq; [|lia]).
  all: try (pose proof (Hfp _ eq_refl) as Hlt).
  all: repeat first
         [ rewrite lookup_insert_eq
         | rewrite lookup_insert_ne by lia
         | rewrite lookup_delete_eq
         | rewrite lookup_delete_ne
             by (intros ?; subst;
                 match goal with
                 | Hq' : pollTimer _ = Some _ |- _ =>
                     first [ by pose proof (Hpoll _ _ Hq' (Hfoc _ eq_refl))
                           | match goal with
                             | H : timers _ !! _ = Some ?t |- _ =>
                                 pose proof (Hpoll _ _ Hq' H); congruence
                             end ]
                 end) ].
  all: try match goal with
       | H : timers _ !! ?h = Some _, Hph : context [timers _ !! ?h] |- _ =>
           rewrite H in Hph
       end.
  all: try (destruct (timers (browser w) !! _); lia).
  all: lia.
Qed.

Lemma reachable_poll_phase w : reachable w → poll_phase w.
Proof.
  induction 1 as [now | w e w' Hw IH Hstep].
  - unfold poll_phase, polls_in_flight, poll_armed, init. by handler_paths.
  - pose proof (reachable_handles _ Hw) as [Hfoc Hpoll].
    apply reachable_invariants in Hw as (Hsingle & Hfresh & _).
    by eapply poll_phase_step.
Qed.

(** X8: in every reachable world the poll loop is in exactly one of two
    phases: either its timeout is pending and none of its fetches is under
    way, or no poll timeout is pending and exactly one of its fetches is
    under way.  So the loop never stops, and it never has two requests
    under way. *)
Theorem poll_loop_alive (w : World) :
  reachable w →
  (poll_pending w ∧ polls_in_flight w = 0%nat) ∨
  (¬ poll_pending w ∧ polls_in_flight w = 1%nat).
Proof.
  intros Hw. pose proof (reachable_poll_phase _ Hw) as Hphase.
  pose proof (reachable_handles _ Hw) as [_ Hpoll].
  apply reachable_invariants in Hw as (Hsingle & _).
  unfold poll_phase, poll_armed, poll_pending in *.
  assert (Hnone : ∀ q, pollTimer (state w) = Some q →
            timers (browser w) !! q = None →
            ¬ ∃ h t, timers (browser w) !! h = Some t ∧ callback t = PollTick).
  { intros q Hq Hgone (h & t & Ht & Hcb).
    destruct (Hsingle _ _ Ht) as [Hp _]. specialize (Hp Hcb). congruence. }
  destruct (pollTimer (state w)) as [q|] eqn:Hq.
  - destruct (timers (browser w) !! q) as [t|] eqn:Ht.
    + left. split; [|lia]. exists q, t. split; [done|]. by eapply Hpoll.
    + right. split; [by eapply Hnone | lia].
  - right. split; [|lia]. intros (h & t & Ht & Hcb).
    destruct (Hsingle _ _ Ht) as [Hp _]. specialize (Hp Hcb). congruence.
Qed.

(** ** The order of the tiles *)

Lemma findLatestBroadcast_label w l :
  findLatestBroadcast w = Some l →
  l ∈ getSlotTimes ∧ is_Some (broadcasts (state w) !! l).
Proof.
  unfold findLatestBroadcast, findLatestBroadcast_of.
  intros (i & s & b & (Hi & Hb & _) & <- & _)%findLatest_loop_Some.
  split; [|by eexists].
  unfold getSlotTimes. apply list_elem_of_fmap. exists s. split; [done|].
  by eapply list_elem_of_lookup_2.
Qed.

Lemma getSlotTimes_cases l :
  l ∈ getSlotTimes → l = "08:00" ∨ l = "12:30" ∨ l = "16:45" ∨ l = "17:45".
Proof.
  unfold getSlotTimes, CONFIG.SLOTS. simpl.
  rewrite !elem_of_cons, elem_of_nil. tauto.
Qed.

Lemma getSortedSlots_of_Some l :
  l ∈ getSlotTimes →
  getSortedSlots_of (Some l) = l :: filter (λ x, x ≠ l) getSlotTimes.
Proof.
  intros [->|[->|[->| ->]]]%getSlotTimes_cases; vm_compute; reflexivity.
Qed.

(** X9: [getSortedSlots] returns the four slot labels, each once; with no
    latest broadcast they are in the configured order, otherwise the latest
    slot comes first and the other three follow in the configured order. *)
Theorem getSortedSlots_latest_first (w : World) :
  getSortedSlots w ≡ₚ getSlotTimes ∧
  (findLatestBroadcast w = None → getSortedSlots w = getSlotTimes) ∧
  (∀ l, findLatestBroadcast w = Some l →
        getSortedSlots w = l :: filter (λ x, x ≠ l) getSlotTimes).
Proof.
  unfold getSortedSlots.
  destruct (findLatestBroadcast w) as [l|] eqn:Hl.
  - apply findLatestBroadcast_label in Hl as [Hin _].
    split_and!; [|done|by intros ? [= <-]; apply getSortedSlots_of_Some].
    apply getSlotTimes_cases in Hin as [->|[->|[->| ->]]];
      apply (bool_decide_unpack _); vm_compute; exact I.
  - by split_and!.
Qed.

(** X10: in the PWA build [getSortedSlots] returns four labels, read from
    the ring as top-left, top-right, bottom-left, bottom-right; going round
    the grid from the top-left down and back up gives the configured slots
    rotated so that the latest comes first, and unrotated when there is no
    latest broadcast. *)
Theorem PWA_getSortedSlots_ring (w : World) :
  ∃ r0 r1 r2 r3,
    PWA.getSortedSlots w = [Some r0; Some r3; Some r1; Some r2] ∧
    (∃ n, [r0; r1; r2; r3] = rotate n getSlotTimes) ∧
    (∀ l, findLatestBroadcast w = Some l → r0 = l) ∧
    (findLatestBroadcast w = None → [r0; r1; r2; r3] = getSlotTimes).
Proof.
  unfold PWA.getSortedSlots.
  destruct (findLatestBroadcast w) as [l|] eqn:Hl.
  - apply findLatestBroadcast_label in Hl as [Hin _].
    apply getSlotTimes_cases in Hin as [->|[->|[->| ->]]].
    + exists "08:00", "12:30", "16:45", "17:45".
      split_and!; [by vm_compute | by exists 0%nat | by intros ? [= <-] | done].
    + exists "12:30", "16:45", "17:45", "08:00".
      split_and!; [by vm_compute | by exists 1%nat | by intros ? [= <-] | done].
    + exists "16:45", "17:45", "08:00", "12:30".
      split_and!; [by vm_compute | by exists 2%nat | by intros ? [= <-] | done].
    + exists "17:45", "08:00", "12:30", "16:45".
      split_and!; [by vm_compute | by exists 3%nat | by intros ? [= <-] | done].
  - exists "08:00", "12:30", "16:45", "17:45".
    split_and!; [by vm_compute | by exists 0%nat | done | done].
Qed.

Lemma renderTiles_slots w : tile_slot <$> renderTiles w = getSortedSlots w.
Proof.
  unfold renderTiles. generalize (getSortedSlots w) as l.
  induction l as [|x l IH]; [done|]. rewrite !fmap_cons. by f_equal.
Qed.

(** X11: [renderTiles] makes one tile for each of the four slots; a tile is
    active, and clickable, exactly when its slot has a broadcast; the tile
    of the latest slot comes first, is active, and is the only one marked
    latest; and in a reachable world the tile marked playing is active. *)
Theorem renderTiles_tiles (w : World) :
  tile_slot <$> renderTiles w ≡ₚ getSlotTimes ∧
  (∀ t, t ∈ renderTiles w →
     clickable t = isActive t ∧
     (isActive t = true ↔ is_Some (broadcasts (state w) !! tile_slot t))) ∧
  (∀ l, findLatestBroadcast w = Some l →
     ∃ t0 rest, renderTiles w = t0 :: rest ∧ tile_slot t0 = l ∧
                isLatest t0 = true ∧ isActive t0 = true ∧
                ∀ t, t ∈ rest → isLatest t = false) ∧
  (findLatestBroadcast w = None →
     ∀ t, t ∈ renderTiles w → isLatest t = false) ∧
  (reachable w →
     ∀ t, t ∈ renderTiles w → isPlaying t = true → isActive t = true).
Proof.
  split_and!.
  - rewrite renderTiles_slots. unfold getSortedSlots.
    destruct (findLatestBroadcast w) as [l|] eqn:Hl; [|done].
    apply findLatestBroadcast_label in Hl as [Hin _].
    apply getSlotTimes_cases in Hin as [->|[->|[->| ->]]];
      apply (bool_decide_unpack _); vm_compute; exact I.
  - unfold renderTiles. intros t (x & -> & _)%list_elem_of_fmap. simpl.
    split; [done|]. by rewrite bool_decide_eq_true.
  - intros l Hl. pose proof (findLatestBroadcast_label _ _ Hl) as [Hin Hb].
    unfold renderTiles, getSortedSlots. rewrite Hl, getSortedSlots_of_Some by done.
    rewrite fmap_cons. eexists _, _. split; [done|]. simpl.
    split_and!; [done | by rewrite bool_decide_eq_true..|].
    intros t (x & -> & [Hne _]%list_elem_of_filter)%list_elem_of_fmap. simpl.
    rewrite bool_decide_eq_false. by intros [= ->].
  - intros Hl t. unfold renderTiles. rewrite Hl.
    by intros (x & -> & _)%list_elem_of_fmap.
  - intros Hw t. unfold renderTiles.
    intros (x & -> & _)%list_elem_of_fmap. simpl.
    rewrite !bool_decide_eq_true. by apply currentSlot_in_store_helper.
Qed.

(** ** togglePlayPause before the first source, after the end of one, and
    after a stop *)

Lemma getSlotTimes_truthy l : l ∈ getSlotTimes → truthy l = true.
Proof. by intros [->|[->|[->| ->]]]%getSlotTimes_cases. Qed.

(** X12: while the audio element has no [src] attribute (nothing has been
    assigned to [src] yet), [togglePlayPause] plays the latest broadcast:
    when [findLatestBroadcast] finds a slot it does what [playBroadcast] does
    for that slot, and when the broadcast has an [audioUrl] that slot becomes
    the current one; when there is none it shows the notice "Inga sändningar
    idag ännu", not as an error, and changes nothing else. *)
Theorem togglePlayPause_nothing_loaded (w : World) :
  src (audioPlayer (elements w)) = None →
  (∀ l, findLatestBroadcast w = Some l →
     togglePlayPause w = playBroadcast l w ∧
     ∃ b, broadcasts (state w) !! l = Some b ∧
          (audioUrl b ≠ "" →
           currentSlot (state (togglePlayPause w)) = Some l ∧
           audioPlayer (elements (togglePlayPause w))
           = {| src := Some (audioUrl b); paused := false |})) ∧
  (findLatestBroadcast w = None →
     state (togglePlayPause w) = state w ∧
     audioPlayer (elements (togglePlayPause w)) = audioPlayer (elements w) ∧
     silencePlayer (elements (togglePlayPause w)) = silencePlayer (elements w) ∧
     statusMessage (elements (togglePlayPause w))
     = {| textContent := "Inga sändningar idag ännu"; error := false;
          visible := true |}).
Proof.
  intros Hsrc. unfold togglePlayPause, src_truthy. rewrite Hsrc. cbn [negb]. split.
  - intros l Hl. rewrite Hl.
    pose proof (findLatestBroadcast_label _ _ Hl) as [Hin [b Hb]].
    rewrite (getSlotTimes_truthy _ Hin). split; [done|].
    exists b. split; [done|]. intros Hurl%truthy_spec.
    unfold playBroadcast. rewrite Hb, Hurl. by proj.
  - intros ->. by split_and!.
Qed.

(** The first click on play/pause after the first fetch: the store has an
    08:00 broadcast and nothing has been assigned to [src]. *)
Lemma togglePlayPause_nothing_loaded_witness :
  reachable w_fetched ∧
  src (audioPlayer (elements w_fetched)) = None ∧
  togglePlayPause w_fetched = playBroadcast "08:00" w_fetched.
Proof.
  assert (Hsrc : src (audioPlayer (elements w_fetched)) = None) by (by vm_compute).
  split_and!; [apply reachable_w_fetched | exact Hsrc |].
  refine (proj1 (proj1 (togglePlayPause_nothing_loaded w_fetched Hsrc) "08:00" _)).
  vm_compute. reflexivity.
Defined.

(** X13: after ['ended'] the source stays loaded, so the next
    [togglePlayPause] does not look for the latest broadcast: it plays the
    same source again, with no current slot. *)
Theorem togglePlayPause_after_ended (w w1 : World) :
  step w AudioEnded w1 →
  currentSlot (state w1) = None ∧
  src (audioPlayer (elements w1)) = src (audioPlayer (elements w)) ∧
  let w2 := togglePlayPause w1 in
  currentSlot (state w2) = None ∧
  audioPlayer (elements w2)
  = {| src := src (audioPlayer (elements w)); paused := false |} ∧
  broadcasts (state w2) = broadcasts (state w).
Proof.
  intros Hstep. inversion Hstep as [| | | |w0 Hsrc| | | | | | | | |]; subst.
  split; [done|]. split; [done|].
  apply loaded_src_truthy in Hsrc.
  unfold togglePlayPause, src_truthy in *. proj.
  destruct (src (audioPlayer (elements w))) as [url|] eqn:Hurl; [|done].
  cbn [negb]. proj.
  rewrite stopAudioFocusKeepAlive_state, stopAudioFocusKeepAlive_audioPlayer.
  proj. unfold media_play, media_pause. cbn [src]. by rewrite Hurl.
Qed.

Lemma togglePlayPause_after_ended_witness :
  step w_playing AudioEnded w_played_out ∧
  currentSlot (state (togglePlayPause w_played_out)) = None.
Proof.
  assert (Hstep : step w_playing AudioEnded w_played_out) by (by apply step_ended).
  split; [exact Hstep|].
  exact (proj1 (proj2 (proj2 (togglePlayPause_after_ended _ _ Hstep)))).
Defined.

(** X19: [stopPlayback] assigns [''] to [src], which leaves the element
    with a [src] attribute, so [elements.audioPlayer.src] is truthy from
    then on.  After a stop [togglePlayPause] therefore does not play the
    latest broadcast, whatever the store holds: it takes the resume branch,
    asks the emptied element to play, and leaves the state as it was, with
    no current slot. *)
Theorem togglePlayPause_after_stopPlayback (w : World) :
  let w1 := stopPlayback w in
  let w2 := togglePlayPause w1 in
  src (audioPlayer (elements w1)) = Some "" ∧
  state w2 = state w1 ∧
  currentSlot (state w2) = None ∧
  status w2 = Stopped ∧
  src (audioPlayer (elements w2)) = Some "" ∧
  statusMessage (elements w2) = statusMessage (elements w1) ∧
  plays (browser w2) = S (plays (browser w1)) ∧
  (∀ l, findLatestBroadcast w1 = Some l →
        togglePlayPause w1 ≠ playBroadcast l w1).
Proof.
  intros w1 w2.
  destruct (stopPlayback_elements w) as [Haudio _].
  pose proof (stopPlayback_state w) as Hstate.
  set (w' := with_elements (λ e, set_audioPlayer (media_play (audioPlayer e)) e)
               (stopAudioFocusKeepAlive w1)).
  assert (Hw2 : w2 = set_plays (S (plays (browser w'))) w').
  { subst w2. unfold togglePlayPause, src_truthy. fold w1 in Haudio.
    rewrite Haudio. cbn [src paused negb]. reflexivity. }
  assert (Hplays : plays (browser w') = plays (browser w1)).
  { subst w'. proj. unfold stopAudioFocusKeepAlive.
    by destruct (audioFocusTimer (state w1)). }
  assert (Hst : state w2 = state w1).
  { rewrite Hw2. unfold w'. proj. rewrite stopAudioFocusKeepAlive_state.
    subst w1. rewrite Hstate. by destruct (state w). }
  assert (Hslot : currentSlot (state w1) = None) by (subst w1; by rewrite Hstate).
  split_and!.
  - subst w1. by rewrite Haudio.
  - exact Hst.
  - by rewrite Hst.
  - unfold status. by rewrite Hst, Hslot.
  - rewrite Hw2. unfold w'. proj. rewrite stopAudioFocusKeepAlive_audioPlayer.
    fold w1 in Haudio. by rewrite Haudio.
  - rewrite Hw2. unfold w'. proj. unfold stopAudioFocusKeepAlive.
    by destruct (audioFocusTimer (state w1)).
  - rewrite Hw2. cbn [set_plays browser plays]. by rewrite Hplays.
  - intros l Hl Heq. fold w2 in Heq.
    pose proof (f_equal (λ x, currentSlot (state x)) Heq) as Hcur.
    pose proof (f_equal (λ x, nextHandle (browser x)) Heq) as Hnext.
    cbn beta in Hcur, Hnext. rewrite Hst, Hslot in Hcur.
    assert (Hn2 : nextHandle (browser w2) = nextHandle (browser w1)).
    { rewrite Hw2. unfold w'. proj. unfold stopAudioFocusKeepAlive.
      by destruct (audioFocusTimer (state w1)). }
    rewrite Hn2 in Hnext. revert Hcur Hnext. unfold playBroadcast.
    destruct (broadcasts (state w1) !! l) as [b|]; [destruct (truthy (audioUrl b))|].
    + proj. done.
    + intros _. proj. lia.
    + intros _. proj. lia.
Qed.

(** ** Fetches that bring nothing *)

(** X14: when a request ends without new broadcasts (not modified, failed,
    or a feed that does not parse), the store, the stored date and the
    playback session are unchanged; a failure shows the error message
    "Kunde inte hämta sändningar", a 304 shows nothing; and the poll loop
    arms its next timeout with the interval of the ordinary schedule. *)
Theorem fetch_without_broadcasts (w : World) (i : nat) (r : FetchOutcome)
    (now : Now) (k : Continuation) :
  (∀ etag lm items, r ≠ Parsed etag lm items) →
  let w' := onFetchSettled k r now (drop_fetch i w) in
  broadcasts (state w') = broadcasts (state w) ∧
  lastFetchDate (state w') = lastFetchDate (state w) ∧
  currentSlot (state w') = currentSlot (state w) ∧
  audioFocusTimer (state w') = audioFocusTimer (state w) ∧
  audioPlayer (elements w') = audioPlayer (elements w) ∧
  (r = NotModified → statusMessage (elements w') = statusMessage (elements w)) ∧
  (r ≠ NotModified →
   statusMessage (elements w')
   = {| textContent := "Kunde inte hämta sändningar"; error := true;
        visible := true |}) ∧
  (k = ThenSchedulePoll →
   ∃ h, pollTimer (state w') = Some h ∧
        timers (browser w') !! h
        = Some {| callback := PollTick; delay := calculatePollInterval now w |}).
Proof.
  intros Hr w'. subst w'.
  destruct r as [| |etag lm|etag lm items]; [| | |by destruct (Hr etag lm items)].
  all: destruct k; handler_paths; split_and!; try done.
  all: intros _; eexists; split; [done|]; by rewrite lookup_insert_eq.
Qed.

Lemma fetch_without_broadcasts_witness :
  broadcasts (state (onFetchSettled ThenSchedulePoll Failed morning
                       (drop_fetch 0 w_polled)))
  = broadcasts (state w_polled).
Proof.
  refine (proj1 (fetch_without_broadcasts w_polled 0 Failed morning
                   ThenSchedulePoll _)).
  intros etag lm items. discriminate.
Defined.

(** ** A fetch across midnight, and a newer broadcast *)

(** X15: a successful fetch stores today's date without a reset, also when
    the day has changed while the request was under way: the entries the
    fetch does not overwrite stay in the store, and the day check that
    follows does nothing. *)
Theorem fetch_across_midnight (w : World) (now1 now2 : Now) (k : Continuation)
    (i : nat) (etag lm : option string) (items : gmap string Broadcast) :
  lastFetchDate (state w) = Some (today now1) →
  let w1 := updateBroadcasts_begin k now1 w in
  let w2 := onFetchSettled k (Parsed etag lm items) now2 (drop_fetch i w1) in
  broadcasts (state w1) = broadcasts (state w) ∧
  (∀ key, items !! key = None →
          broadcasts (state w2) !! key = broadcasts (state w) !! key) ∧
  lastFetchDate (state w2) = Some (today now2) ∧
  checkDayChange now2 w2 = (w2, false) ∧
  onMidnightCheck now2 w2 = w2.
Proof.
  intros Hd w1 w2.
  assert (Hw1 : w1 = push_fetch k w).
  { subst w1. unfold updateBroadcasts_begin, checkDayChange. rewrite Hd.
    rewrite String.eqb_refl. by destruct (truthy (today now1)). }
  assert (Hb : ∀ key, broadcasts (state w2) !! key
                      = Object_assign (broadcasts (state w)) items !! key).
  { intros key. subst w2. rewrite Hw1. destruct k; by handler_paths. }
  assert (Hdate : lastFetchDate (state w2) = Some (today now2)).
  { subst w2. destruct k; by handler_paths. }
  assert (Hcheck : checkDayChange now2 w2 = (w2, false)).
  { unfold checkDayChange. rewrite Hdate, String.eqb_refl.
    by destruct (truthy (today now2)). }
  split_and!; [by rewrite Hw1 | | done | done |].
  - intros key Hkey. by rewrite Hb, Object_assign_lookup, Hkey.
  - unfold onMidnightCheck. by rewrite Hcheck.
Qed.

(** The poll timeout fires at 23:59 on 9 February and the response, with
    the 12:30 broadcast, arrives on 10 February: the 08:00 broadcast of the
    9th is still in the store. *)
Lemma fetch_across_midnight_witness :
  let w2 := onFetchSettled ThenSchedulePoll
              (Parsed None None {[ "12:30" := ekot "12:30" 1770636600000 ]})
              (feb "10")
              (drop_fetch 0 (updateBroadcasts_begin ThenSchedulePoll (at_time 23 59)
                               (clearTimeout 1 w_fetched))) in
  is_Some (broadcasts (state w2) !! "08:00") ∧
  checkDayChange (feb "10") w2 = (w2, false).
Proof.
  intros w2.
  destruct (fetch_across_midnight (clearTimeout 1 w_fetched) (at_time 23 59)
              (feb "10") ThenSchedulePoll 0 None None
              {[ "12:30" := ekot "12:30" 1770636600000 ]} eq_refl)
    as (_ & Hkeep & _ & Hcheck & _).
  split; [|exact Hcheck].
  unfold w2. rewrite (Hkeep "08:00" eq_refl). vm_compute. eauto.
Defined.

Lemma slot_labels_distinct i j s s' :
  CONFIG.SLOTS !! i = Some s → CONFIG.SLOTS !! j = Some s' →
  time s = time s' → i = j.
Proof.
  intros Hi Hj Ht.
  apply (NoDup_lookup getSlotTimes i j (time s)); [apply NoDup_getSlotTimes | |].
  - unfold getSlotTimes. by rewrite list_lookup_fmap, Hi.
  - unfold getSlotTimes. by rewrite list_lookup_fmap, Hj, Ht.
Qed.

(** X16: when a fetch brings, for a configured slot, a broadcast with a
    positive timestamp that is greater than the timestamp of every other
    entry of the merged store, that slot is the latest after the merge. *)
Theorem newer_broadcast_becomes_latest (w : World) (now : Now)
    (items : gmap string Broadcast) (s : Slot) (b : Broadcast) :
  s ∈ CONFIG.SLOTS → items !! time s = Some b → 0 < timestamp b →
  let w' := updateBroadcasts_resume now (Some items) w in
  (∀ k b', k ≠ time s → broadcasts (state w') !! k = Some b' →
           timestamp b' < timestamp b) →
  findLatestBroadcast w' = Some (time s).
Proof.
  intros [i Hi]%list_elem_of_lookup_1 Hb Hpos w' Holder.
  assert (Hmerged : broadcasts (state w') !! time s = Some b).
  { subst w'. proj. unfold updateBroadcasts_resume. proj.
    by rewrite Object_assign_lookup, Hb. }
  unfold findLatestBroadcast, findLatestBroadcast_of.
  apply (findLatest_loop_first_max _ _ i s b); [|done].
  split_and!; [done | done | |].
  - intros j s' b' Hj Hb'.
    destruct (decide (time s' = time s)) as [Heq|Hne].
    + rewrite Heq, Hmerged in Hb'. injection Hb' as ->. lia.
    + specialize (Holder _ _ Hne Hb'). lia.
  - intros j s' b' Hlt Hj Hb'. apply (Holder (time s')); [|done].
    intros Heq. pose proof (slot_labels_distinct _ _ _ _ Hj Hi Heq). lia.
Qed.

(** The 12:30 broadcast arrives after the 08:00 one. *)
Lemma newer_broadcast_becomes_latest_witness :
  findLatestBroadcast
    (updateBroadcasts_resume (at_time 13 5)
       (Some {[ "12:30" := ekot "12:30" 1770636600000 ]}) w_fetched)
  = Some "12:30".
Proof.
  apply (newer_broadcast_becomes_latest w_fetched (at_time 13 5)
           {[ "12:30" := ekot "12:30" 1770636600000 ]}
           {| time := "12:30"; pollStart := {| hour := 13; minute := 0 |} |}
           (ekot "12:30" 1770636600000)).
  - apply list_elem_of_lookup_2 with 1%nat. reflexivity.
  - reflexivity.
  - reflexivity.
  - intros k b' Hne Hb'.
    assert (Hk : k = "08:00" ∧ b' = ekot "08:00" 1770620400000).
    { revert Hb'. unfold updateBroadcasts_resume. proj.
      rewrite Object_assign_lookup.
      destruct (decide (k = "12:30")) as [->|Hk]; [done|].
      rewrite lookup_singleton_ne by done.
      change (broadcasts (state w_fetched))
        with (Object_assign (∅ : gmap string Broadcast)
                            {[ "08:00" := ekot "08:00" 1770620400000 ]}).
      rewrite Object_assign_lookup, lookup_empty.
      destruct (decide (k = "08:00")) as [->|Hk8].
      - rewrite lookup_singleton_eq. by intros [= <-].
      - by rewrite lookup_singleton_ne. }
    destruct Hk as [-> ->]. reflexivity.
Defined.

(** ** Status messages *)

(** X17: [showStatus] does not cancel the timeout of an earlier message:
    after two calls both timeouts are pending, and when the first one fires
    it hides the second message while that message's own timeout is still
    pending. *)
Theorem earlier_status_timeout_hides_later_message
    (w : World) (m1 m2 : string) (e1 e2 : bool) :
  let h1 := nextHandle (browser w) in
  let w2 := showStatus m2 e2 (showStatus m1 e1 w) in
  let w3 := onStatusTimer (clearTimeout h1 w2) in
  statusMessage (elements w2)
  = {| textContent := m2; error := e2; visible := true |} ∧
  step w2 (StatusTimerFired h1) w3 ∧
  statusMessage (elements w3)
  = {| textContent := m2; error := e2; visible := false |} ∧
  timers (browser w3) !! Pos.succ h1
  = Some {| callback := StatusHide; delay := 3000 |}.
Proof.
  intros h1 w2 w3. subst h1 w2 w3. split_and!.
  - done.
  - apply (step_status _ _ {| callback := StatusHide; delay := 3000 |});
      [|reflexivity].
    unfold showStatus. proj.
    rewrite lookup_insert_ne by lia. by rewrite lookup_insert_eq.
  - done.
  - unfold showStatus, onStatusTimer. proj.
    rewrite lookup_delete_ne by lia. by rewrite lookup_insert_eq.
Qed.

(** ** skipTime *)

(** X18: [skipTime] does nothing while the element has no [src]; otherwise
    the new position lies between 0 and the duration, it is the old
    position plus the step when that lies in the range below the duration,
    and it is 0 when the duration is not known yet. *)
Theorem skipTime_clamped {num : Type} (N : NumOps num) (seconds : num)
    (m : Media) (p : Playhead num) :
  (∀ a b, num_leb N a b = true ∨ num_leb N b a = true) →
  let d := default (num_zero N) (duration p) in
  num_leb N (num_zero N) d = true →
  let p' := skipTime N seconds m p in
  let x := num_add N (currentTime p) seconds in
  (src m = None → p' = p) ∧
  (src m ≠ None →
     num_leb N (num_zero N) (currentTime p') = true ∧
     num_leb N (currentTime p') d = true ∧
     duration p' = duration p ∧
     (num_leb N (num_zero N) x = true → num_leb N d x = false →
      currentTime p' = x) ∧
     (duration p = None → currentTime p' = num_zero N)).
Proof.
  intros Htotal d Hd p' x. subst p'. unfold skipTime, src_truthy. split.
  - by intros ->.
  - intros Hsrc. destruct (src m) as [url|]; [|done]. simpl. fold d x.
    assert (Hrefl : ∀ a, num_leb N a a = true)
      by (intros a; by destruct (Htotal a a)).
    unfold Math_max, Math_min. split_and!.
    + destruct (num_leb N d x) eqn:Hdx.
      * by rewrite Hd.
      * destruct (num_leb N (num_zero N) x) eqn:H0x; [done | apply Hrefl].
    + destruct (num_leb N d x) eqn:Hdx.
      * rewrite Hd. apply Hrefl.
      * destruct (Htotal d x) as [Hc|Hxd]; [congruence|].
        by destruct (num_leb N (num_zero N) x) eqn:H0x.
    + done.
    + intros H0x Hdx. by rewrite Hdx, H0x.
    + intros Hnone. subst d x. rewrite Hnone. cbn [default].
      destruct (num_leb N (num_zero N) (num_add N _ _)) eqn:H0x.
      * by destruct (num_leb N (num_zero N) (num_zero N)).
      * by rewrite H0x.
Qed.

(** Whole seconds: 15 seconds forward from 1:40 of a 1:50 broadcast stops at
    the end. *)
Lemma skipTime_clamped_witness :
  currentTime (skipTime Z_seconds 15 (media_set_src "https://sr.se/ekot.mp3" (audioPlayer (elements (init morning))))
                 {| currentTime := 100; duration := Some 110 |}) <= 110.
Proof.
  pose proof (skipTime_clamped Z_seconds 15
                (media_set_src "https://sr.se/ekot.mp3" (audioPlayer (elements (init morning))))
                {| currentTime := 100; duration := Some 110 |}) as H.
  destruct H as [_ H].
  - intros a b. simpl. rewrite !Z.leb_le. lia.
  - reflexivity.
  - destruct H as (_ & Hle & _); [done|].
    simpl in Hle. by apply Z.leb_le in Hle.
Defined.

(** ** The invariants along the run of the examples *)

Lemma reachable_when_w_parsed : reachable_when from_feed w_parsed.
Proof.
  eapply reachable_when_step;
    [ apply (reachable_when_init _ morning); reflexivity | | |
      apply (step_fetch _ 0 ThenSchedulePoll); reflexivity ].
  - exists day_prefix, morning_feed. reflexivity.
  - intros now [= <-]. reflexivity.
Defined.

Lemma reachable_when_w_fetched : reachable_when (λ _, True) w_fetched.
Proof.
  eapply reachable_when_step;
    [ apply (reachable_when_init _ morning); reflexivity | exact I | |
      apply (step_fetch _ 0 ThenSchedulePoll); reflexivity ].
  intros now [= <-]. reflexivity.
Defined.

(** The store after the morning's feed. *)
Lemma store_keys_configured_witness :
  (∀ k, is_Some (broadcasts (state w_parsed) !! k) → k ∈ getSlotTimes) ∧
  (size (broadcasts (state w_parsed)) ≤ 4)%nat.
Proof. exact (store_keys_configured w_parsed reachable_when_w_parsed). Defined.

(** After the first fetch: the check at 08:30 does not reset, the one at
    the next midnight does. *)
Lemma checkDayChange_guard_never_blocks_witness :
  snd (checkDayChange morning w_fetched) = false ∧
  snd (checkDayChange (feb "10") w_fetched) = true.
Proof.
  destruct (checkDayChange_guard_never_blocks w_fetched reachable_when_w_fetched)
    as [_ H].
  split.
  - destruct (snd (checkDayChange morning w_fetched)) eqn:E; [|reflexivity].
    apply H in E. exfalso. apply E. reflexivity.
  - apply H. discriminate.
Defined.

(** While the 08:00 broadcast plays it is in the store. *)
Lemma currentSlot_in_store_witness :
  is_Some (broadcasts (state w_playing) !! "08:00").
Proof. exact (currentSlot_in_store w_playing reachable_w_playing "08:00" eq_refl). Defined.

(** While the 08:00 broadcast is paused the release is pending. *)
Lemma focus_release_always_pending_witness :
  ∃ h, audioFocusTimer (state w_paused) = Some h ∧
       timers (browser w_paused) !! h
       = Some {| callback := FocusRelease; delay := CONFIG.AUDIO_FOCUS_TIMEOUT |}.
Proof.
  apply (focus_release_always_pending w_paused reachable_w_paused). reflexivity.
Defined.

(** After the first fetch the timeout is pending; when it has fired, the
    next fetch is under way. *)
Lemma poll_loop_alive_witness :
  (poll_pending w_fetched ∧ polls_in_flight w_fetched = 0%nat) ∨
  (¬ poll_pending w_fetched ∧ polls_in_flight w_fetched = 1%nat).
Proof. exact (poll_loop_alive w_fetched reachable_w_fetched). Defined.
